(** * Graham scan (graham_scan.py): a shallow embedding and its properties

    The program works on a numpy array of shape (N, 2).  The embedding
    takes the element type of the array built in [main], int64:

    - a point (one row) is a pair of integers, an array a [list point];
    - int64 arithmetic ([-], [*], [+] in [ccw]) wraps around modulo 2^64;
    - [v[1] / v[0]] is numpy's true division of two int64 scalars: both
      are converted to float64 and divided, division by zero gives an
      infinity or a NaN (a warning, not an exception).  A finite float64
      is represented by the rational it denotes, with the rounding to 53
      significant bits written out; quotients of int64 values never leave
      the range of normal numbers;
    - [np.argsort] belongs to numpy, not to the program: it is a section
      variable constrained by what numpy documents for the default kind
      (the indices of the input in an order that sorts it, NaN last);
    - an indexing that raises is modelled in an error monad; negative
      indices count from the end, as in Python. *)

From Stdlib Require Import ZArith QArith Lia.
From stdpp Require Import base tactics option list list_numbers sorting numbers.

Open Scope Z_scope.

(** ** Exceptions *)

Inductive exception : Set :=
| ValueError   (* np.argmin: attempt to get argmin of an empty sequence *)
| IndexError.  (* index out of bounds *)

Inductive result (A : Type) : Type :=
| Ok (a : A)
| Raise (e : exception).
Arguments Ok {A} a.
Arguments Raise {A} e.

Global Instance result_ret : MRet result := fun A a => Ok a.
Global Instance result_bind : MBind result := fun A B f m =>
  match m with
  | Ok a => f a
  | Raise e => Raise e
  end.

(** ** Numbers *)

Module Int64.

Definition wrap (z : Z) : Z := (z + 2 ^ 63) mod 2 ^ 64 - 2 ^ 63.
Definition sub (a b : Z) : Z := wrap (a - b).
Definition mul (a b : Z) : Z := wrap (a * b).
Definition add (a b : Z) : Z := wrap (a + b).
Definition in_range (z : Z) : Prop := - 2 ^ 63 <= z < 2 ^ 63.

End Int64.

Module Float64.

(** The values a float64 division of two int64 can produce. *)
Inductive t : Type :=
| NegInf
| Finite (q : Q)
| PosInf
| NaN.

(** Round to nearest, ties to even, on 53 significant bits. *)
Definition round (q : Q) : Q :=
  let n := Qnum q in
  let d := Z.pos (Qden q) in
  if n =? 0 then 0%Q else
  let a := Z.abs n in
  let e0 := Z.log2 a - Z.log2 d in
  let ge := if 0 <=? e0 then d * 2 ^ e0 <=? a else d <=? a * 2 ^ (- e0) in
  let e := if ge then e0 else e0 - 1 in
  let s := 52 - e in
  let num := if 0 <=? s then a * 2 ^ s else a in
  let den := if 0 <=? s then d else d * 2 ^ (- s) in
  let fl := num / den in
  let r := num mod den in
  let m := if 2 * r <? den then fl
           else if den <? 2 * r then fl + 1
           else if Z.even fl then fl else fl + 1 in
  let m := Z.sgn n * m in
  if 0 <=? s then Qmake m (Z.to_pos (2 ^ s)) else inject_Z (m * 2 ^ (- s)).

Definition of_int64 (z : Z) : Q := round (inject_Z z).

(** [y / x] on two int64 scalars. *)
Definition true_divide (y x : Z) : t :=
  if x =? 0 then
    if 0 <? y then PosInf else if y <? 0 then NegInf else NaN
  else Finite (round (of_int64 y / of_int64 x)).

(** The order numpy sorts float64 by: IEEE [<], and NaN after all. *)
Definition lt (a b : t) : bool :=
  match a, b with
  | NaN, _ => false
  | _, NaN => true
  | _, NegInf => false
  | NegInf, _ => true
  | PosInf, _ => false
  | Finite _, PosInf => true
  | Finite p, Finite q =>
      match Qcompare p q with Lt => true | _ => false end
  end.

Definition le (a b : t) : bool := negb (lt b a).

End Float64.

(** ** Arrays and indexing *)

Definition point : Type := Z * Z.

Section indexing.
Context {A : Type}.

(** Position of the integer index [k] in an array of [n] rows. *)
Definition position (n : nat) (k : Z) : option nat :=
  let k' := if k <? 0 then k + Z.of_nat n else k in
  if (0 <=? k') && (k' <? Z.of_nat n) then Some (Z.to_nat k') else None.

(** [a[k]] *)
Definition getitem (a : list A) (k : Z) : result A :=
  match position (length a) k ≫= (a !!.) with
  | Some x => Ok x
  | None => Raise IndexError
  end.

(** [a[k] = x] *)
Definition setitem (a : list A) (k : Z) (x : A) : result (list A) :=
  match position (length a) k with
  | Some j => Ok (<[j:=x]> a)
  | None => Raise IndexError
  end.

(** A slice bound, clamped as Python does. *)
Definition bound (n : nat) (default : Z) (k : option Z) : Z :=
  match k with
  | None => default
  | Some k =>
      if k <? 0 then Z.max 0 (k + Z.of_nat n) else Z.min k (Z.of_nat n)
  end.

(** [a[start:stop]] *)
Definition slice (a : list A) (start stop : option Z) : list A :=
  let lo := bound (length a) 0 start in
  let hi := bound (length a) (Z.of_nat (length a)) stop in
  take (Z.to_nat (hi - lo)) (drop (Z.to_nat lo) a).

End indexing.

(** [range(start, stop)] *)
Definition range (start stop : Z) : list Z := seqZ start (stop - start).

(** [for x in xs: st = body(st, x)], stopping at the first exception. *)
Fixpoint for_each {S X : Type} (body : S → X → result S)
    (xs : list X) (st : S) : result S :=
  match xs with
  | [] => Ok st
  | x :: xs => st' ← body st x; for_each body xs st'
  end.

(** ** The program *)

(** [swap(a, li, ri)] *)
Definition swap (a : list point) (li ri : Z) : result (list point) :=
  tmp ← getitem a li;
  x ← getitem a ri;
  a ← setitem a li x;
  setitem a ri tmp.

(** [ccw(p1, p2, p3)] *)
Definition ccw (p1 p2 p3 : point) : Z :=
  let dx1 := Int64.sub p2.1 p1.1 in
  let dy1 := Int64.sub p2.2 p1.2 in
  let dx2 := Int64.sub p3.1 p1.1 in
  let dy2 := Int64.sub p3.2 p1.2 in
  let dx1dy2 := Int64.mul dx1 dy2 in
  let dy1dx2 := Int64.mul dy1 dx2 in
  if dx1dy2 >? dy1dx2 then 1
  else if dx1dy2 <? dy1dx2 then -1
  else if (Int64.mul dx1 dx2 <? 0) || (Int64.mul dy1 dy2 <? 0) then -1
  else if Int64.add (Int64.mul dx1 dx1) (Int64.mul dy1 dy1)
          <? Int64.add (Int64.mul dx2 dx2) (Int64.mul dy2 dy2) then 1
  else 0.

(** [points.ravel()]: the array as numpy scans it in [np.argmin]. *)
Definition ravel (points : list point) : list Z :=
  p ← points; [p.1; p.2].

(** The scan of [np.argmin]: the first position of the least value. *)
Fixpoint argmin_scan (best_idx : nat) (best : Z) (idx : nat) (l : list Z) : nat :=
  match l with
  | [] => best_idx
  | x :: l =>
      if x <? best then argmin_scan idx x (S idx) l
      else argmin_scan best_idx best (S idx) l
  end.

(** [np.argmin(points)], without [axis]: an index into the flattened array. *)
Definition argmin (points : list point) : result Z :=
  match ravel points with
  | [] => Raise ValueError
  | x :: l => Ok (Z.of_nat (argmin_scan 0 x 1 l))
  end.

(** [extract_primary(points)] *)
Definition extract_primary (points : list point) : result (point * list point) :=
  min_point_idx ← argmin points;
  primary ← getitem points min_point_idx;
  let remaining_points :=
    slice points None (Some min_point_idx)
      ++ slice points (Some (min_point_idx + 1)) None in
  Ok (primary, remaining_points).

(** The inner [while] of [find_hull_vertices]: the value of [M] when the
    loop is left.  Each round reads [points[M - 1]], which raises once
    [M - 1 < -N], so [M + N] rounds are enough. *)
Fixpoint backtrack (fuel : nat) (points : list point) (M i : Z) : result Z :=
  p1 ← getitem points M;
  p2 ← getitem points (M - 1);
  p3 ← getitem points i;
  if 0 <=? ccw p1 p2 p3 then
    match fuel with
    | O => Raise IndexError
    | S fuel => backtrack fuel points (M - 1) i
    end
  else Ok M.

(** One round of the [for] loop of [find_hull_vertices]. *)
Definition sweep_step (st : list point * Z) (i : Z) : result (list point * Z) :=
  let '(points, M) := st in
  M ← backtrack (Z.to_nat (M + Z.of_nat (length points))) points M i;
  let M := M + 1 in
  points ← swap points M i;
  Ok (points, M).

(** [find_hull_vertices(points)] *)
Definition find_hull_vertices (points : list point) : result (list point) :=
  let M := 3 in
  let N := Z.of_nat (length points) in
  '(points, M) ← for_each sweep_step (range 4 N) (points, M);
  Ok (slice points (Some 1) (Some (M + 1))).

(** The sort key of a row, [v[1] / v[0]]. *)
Definition slope (v : point) : Float64.t := Float64.true_divide v.2 v.1.

Section with_argsort.

(** [np.argsort] on a one-dimensional float64 array. *)
Variable argsort : list Float64.t → list nat.

(** [sort_for_graham_scan(points, primary)] *)
Definition sort_for_graham_scan (points : list point) (primary : point)
    : result (list point) :=
  let point_slopes := slope <$> points in
  let sorted_indexes := argsort point_slopes in
  sorted_points ← mapM (λ j, getitem points (Z.of_nat j)) sorted_indexes;
  let hull := slice sorted_points (Some (-1)) None ++ [primary] ++ sorted_points in
  Ok hull.

(** [graham_scan(points)] *)
Definition graham_scan (points : list point) : result (list point) :=
  '(primary, remaining_points) ← extract_primary points;
  sorted_points ← sort_for_graham_scan remaining_points primary;
  hull ← find_hull_vertices sorted_points;
  Ok hull.

End with_argsort.

(** ** [np.argsort] *)

(** What numpy documents of [np.argsort]: the result lists every index of
    the input once, and reading the input in that order gives an ascending
    sequence.  The default kind is not required to keep ties in order. *)
Definition key_le (keys : list Float64.t) (i j : nat) : Prop :=
  match keys !! i, keys !! j with
  | Some a, Some b => Float64.le a b = true
  | _, _ => False
  end.

Definition argsort_spec (argsort : list Float64.t → list nat) : Prop :=
  ∀ keys, argsort keys ≡ₚ seq 0 (length keys)
          ∧ Sorted (key_le keys) (argsort keys).

(** An [argsort] that meets the contract: insertion of the indices, one
    by one from the last, before the first index of a key not smaller. *)
Fixpoint insert_index (keys : list Float64.t) (i : nat) (l : list nat) : list nat :=
  match l with
  | [] => [i]
  | j :: l' =>
      match keys !! i, keys !! j with
      | Some a, Some b =>
          if Float64.le a b then i :: l else j :: insert_index keys i l'
      | _, _ => i :: l
      end
  end.

Definition insertion_argsort (keys : list Float64.t) : list nat :=
  foldr (insert_index keys) [] (seq 0 (length keys)).

(** Another one: the same insertion, the indices taken from the first. *)
Definition backward_argsort (keys : list Float64.t) : list nat :=
  foldr (insert_index keys) [] (reverse (seq 0 (length keys))).

(** ** Notions used in the statements *)

Definition slope_le (p q : point) : Prop := Float64.le (slope p) (slope q) = true.

(** No two keys of the list tie. *)
Fixpoint tie_free (keys : list Float64.t) : bool :=
  match keys with
  | [] => true
  | a :: keys' =>
      forallb (λ b, Float64.lt a b || Float64.lt b a) keys' && tie_free keys'
  end.

Definition scenario1 : list point :=
  [(1,1); (2,5); (3,2); (4,4); (5,2); (6,3); (2,3); (3,4); (5,3)].

(** The points [graham_scan] hands to the sort. *)
Definition remaining (points : list point) : list point :=
  match extract_primary points with
  | Ok (_, remaining_points) => remaining_points
  | Raise _ => []
  end.

(** The values [ccw] returns, named as its docstring names them. *)
Definition clockwise : Z := 1.
Definition counter_clockwise : Z := -1.
Definition collinear : Z := 0.

(** Order on points: x first, y to break ties on x. *)
Definition lex_lt (p q : point) : Prop :=
  p.1 < q.1 ∨ (p.1 = q.1 ∧ p.2 < q.2).

(** The Orientation Test in the words of the specification, on exact
    integers: compare the two products; when they are equal, opposite
    senses first, then the squared lengths. *)
Definition opposite_signs (a b : Z) : bool :=
  (a <? 0) && (0 <? b) || (0 <? a) && (b <? 0).

Definition orientation_test (p1 p2 p3 : point) : Z :=
  let dx1 := p2.1 - p1.1 in
  let dy1 := p2.2 - p1.2 in
  let dx2 := p3.1 - p1.1 in
  let dy2 := p3.2 - p1.2 in
  if dx1 * dy2 >? dy1 * dx2 then clockwise
  else if dx1 * dy2 <? dy1 * dx2 then counter_clockwise
  else if opposite_signs dx1 dx2 || opposite_signs dy1 dy2 then counter_clockwise
  else if dx1 * dx1 + dy1 * dy1 <? dx2 * dx2 + dy2 * dy2 then clockwise
  else collinear.

(** Coordinates on which the int64 operations of [ccw] do not wrap. *)
Definition small (p : point) : Prop :=
  (- 2 ^ 30 < p.1 < 2 ^ 30) ∧ (- 2 ^ 30 < p.2 < 2 ^ 30).

(** The left side of the condition of the inner [while]:
    [ccw(points[M], points[M - 1], points[i])]. *)
Definition turn_at (points : list point) (M i : Z) : result Z :=
  p1 ← getitem points M;
  p2 ← getitem points (M - 1);
  p3 ← getitem points i;
  Ok (ccw p1 p2 p3).

(** After each of the rounds [js], started in [st], the cursor is above
    [lo]: the backtracking of that round stopped at a cursor of at least
    [lo]. *)
Fixpoint rounds_stop_above (lo : Z) (js : list Z) (st : list point * Z) : bool :=
  match js with
  | [] => true
  | i :: js =>
      match sweep_step st i with
      | Ok st' => (lo <? st'.2) && rounds_stop_above lo js st'
      | Raise _ => false
      end
  end.

(** In the sweep of [points] every backtracking stops at some [M >= 1]:
    the turn at the pivot, not an exception, ends it at the latest. *)
Definition sentinel_stops (points : list point) : bool :=
  rounds_stop_above 1 (range 4 (Z.of_nat (length points))) (points, 3).

(** Six points whose sweep passes the pivot, and their working array. *)
Definition six_points : list point :=
  [(1,6); (4,3); (6,1); (3,5); (5,1); (2,5)].

Definition six_points_sorted : list point :=
  [(2,5); (1,6); (6,1); (5,1); (4,3); (3,5); (2,5)].

(** Rows of the sweep still in play when the cursor is [M] and the next
    candidate is at [i]: the accepted points [2..M] and the candidates. *)
Definition live (M i j : Z) : Prop := 2 ≤ j ≤ M ∨ i ≤ j.

(** The orientation test, as the sweep applies it, reports a left turn at
    row [k] between its neighbours. *)
Definition left_at (points : list point) (k : Z) : Prop :=
  ∃ p1 p2 p3,
    points !! Z.to_nat k = Some p1
    ∧ points !! Z.to_nat (k - 1) = Some p2
    ∧ points !! Z.to_nat (k + 1) = Some p3
    ∧ ccw p1 p2 p3 < 0.

(** What the sweep keeps true as long as no backtracking passes the pivot. *)
Record sweep_inv (points : list point) (M i : Z) : Prop := {
  inv_cursor : 2 ≤ M < i;
  inv_left : ∀ k, 3 ≤ k < M → left_at points k;
  inv_sorted : ∀ j1 j2 p q,
    live M i j1 → live M i j2 → j1 < j2 →
    points !! Z.to_nat j1 = Some p → points !! Z.to_nat j2 = Some q →
    slope_le p q
}.

(** The consecutive triples of a hull, the last two wrapping to its first
    points. *)
Definition cyclic_triples (hull : list point) : list (point * point * point) :=
  let n := length hull in
  (λ k, (hull !!! k, hull !!! ((k + 1) mod n)%nat, hull !!! ((k + 2) mod n)%nat))
    <$> seq 0 n.

(** The orientation test on a triple [a, b, c] the way the sweep applies
    it: [b] is the accepted point, [a] the one below it, [c] the candidate. *)
Definition turn_in_sweep (t : point * point * point) : Z :=
  let '(a, b, c) := t in ccw b a c.

(** The orientation test on a triple with its points in walking order. *)
Definition turn_in_order (t : point * point * point) : Z :=
  let '(a, b, c) := t in ccw a b c.

Definition four_points : list point := [(1,1); (1,2); (2,5); (2,6)].

(** [c] lies between [a] and [b], ends included. *)
Definition between (a c b : Z) : Prop := a ≤ c ≤ b ∨ b ≤ c ≤ a.

(** The point [p] moved by the vector [v]. *)
Definition translate (v p : point) : point := (p.1 + v.1, p.2 + v.2).

(** [m] is the least value of [l] and [r] the first position that holds it. *)
Definition first_least (l : list Z) (r : nat) (m : Z) : Prop :=
  l !! r = Some m
  ∧ (∀ y, y ∈ l → m ≤ y)
  ∧ (∀ k y, (k < r)%nat → l !! k = Some y → m < y).

(** The state of the sweep of [sorted_points] before the round of the
    candidate at [i], when no backtracking has passed the pivot. *)
Record sweep_state (sorted_points points : list point) (M i : Z) : Prop := {
  st_inv : sweep_inv points M i;
  st_next : 4 ≤ i;
  st_start : i = 4 → points = sorted_points ∧ M = 3;
  st_length : length points = length sorted_points;
  st_sentinel : points !! 0%nat = sorted_points !! 0%nat;
  st_pivot : points !! 1%nat = sorted_points !! 1%nat;
  st_top : points !! Z.to_nat M = sorted_points !! Z.to_nat (i - 1);
  st_rest : ∀ j, i ≤ j → points !! Z.to_nat j = sorted_points !! Z.to_nat j;
  st_perm : points ≡ₚ sorted_points
}.

(** * Properties *)

(** ** The order of the sort keys *)

Module Float64Facts.
Import Float64.

Lemma lt_finite p q : lt (Finite p) (Finite q) = true ↔ (p < q)%Q.
Proof.
  simpl. rewrite Qlt_alt. destruct (p ?= q)%Q; split; congruence.
Qed.

Lemma le_finite p q : le (Finite p) (Finite q) = true ↔ (p <= q)%Q.
Proof.
  unfold le. rewrite negb_true_iff, <- not_true_iff_false, lt_finite.
  split; [apply Qnot_lt_le | apply Qle_not_lt].
Qed.

Lemma lt_asym a b : lt a b = true → lt b a = false.
Proof.
  destruct a as [|p| |], b as [|q| |]; try (simpl; congruence).
  rewrite lt_finite. intros H. apply not_true_iff_false.
  rewrite lt_finite. intros H'. exact (Qlt_irrefl p (Qlt_trans _ _ _ H H')).
Qed.

Lemma le_total a b : le a b = true ∨ le b a = true.
Proof.
  unfold le. destruct (lt b a) eqn:H; [|by left].
  right. by rewrite (lt_asym _ _ H).
Qed.

Lemma le_trans a b c : le a b = true → le b c = true → le a c = true.
Proof.
  destruct a as [|p| |], b as [|q| |], c as [|r| |];
    try (unfold le; simpl; congruence).
  rewrite !le_finite. apply Qle_trans.
Qed.

End Float64Facts.

(** ** [np.argsort]: the contract and two functions that meet it *)

Section argsort_facts.
Variable keys : list Float64.t.

Local Instance key_le_trans : Transitive (key_le keys).
Proof.
  intros i j k. unfold key_le.
  destruct (keys !! i), (keys !! j), (keys !! k); try tauto.
  apply Float64Facts.le_trans.
Qed.

Lemma insert_index_perm i l : insert_index keys i l ≡ₚ i :: l.
Proof.
  induction l as [|j l IH]; simpl; [done|].
  destruct (keys !! i), (keys !! j); try done.
  destruct (Float64.le _ _); [done|].
  rewrite IH. apply Permutation_swap.
Qed.

Lemma insert_index_hd i j l :
  key_le keys j i → HdRel (key_le keys) j l →
  HdRel (key_le keys) j (insert_index keys i l).
Proof.
  intros Hji Hl. destruct l as [|k l]; simpl; [by constructor|].
  destruct (keys !! i), (keys !! k); try by constructor.
  destruct (Float64.le _ _); constructor; [done|].
  by inv Hl.
Qed.

Lemma insert_index_sorted i l :
  (i < length keys)%nat → Forall (λ j, (j < length keys)%nat) l →
  Sorted (key_le keys) l → Sorted (key_le keys) (insert_index keys i l).
Proof.
  intros Hi Hl Hs. induction l as [|j l IH]; simpl.
  { repeat constructor. }
  inv Hl. inv Hs.
  destruct (lookup_lt_is_Some_2 keys i Hi) as [a Ha].
  destruct (lookup_lt_is_Some_2 keys j) as [b Hb]; [done|].
  rewrite Ha, Hb. destruct (Float64.le a b) eqn:Hab.
  - repeat constructor; [done..|].
    unfold key_le. by rewrite Ha, Hb.
  - constructor; [by apply IH|].
    apply insert_index_hd; [|done].
    unfold key_le. rewrite Ha, Hb.
    destruct (Float64Facts.le_total a b); congruence.
Qed.

Lemma insertion_from_spec order :
  order ≡ₚ seq 0 (length keys) →
  foldr (insert_index keys) [] order ≡ₚ seq 0 (length keys)
  ∧ Sorted (key_le keys) (foldr (insert_index keys) [] order).
Proof.
  intros Hp.
  assert (Forall (λ j, (j < length keys)%nat) order) as Hlt.
  { rewrite Hp. apply Forall_seq. lia. }
  split.
  - rewrite <- Hp. clear. induction order as [|i l IH]; simpl; [done|].
    by rewrite insert_index_perm, IH.
  - clear Hp. induction Hlt as [|i l Hi Hl IH]; simpl; [constructor|].
    apply insert_index_sorted; [done| |done].
    assert (foldr (insert_index keys) [] l ≡ₚ l) as ->; [|done].
    clear. induction l as [|i l IH]; simpl; [done|].
    by rewrite insert_index_perm, IH.
Qed.

Lemma tie_free_lookup i j a b :
  tie_free keys = true → keys !! i = Some a → keys !! j = Some b →
  i ≠ j → Float64.lt a b || Float64.lt b a = true.
Proof.
  assert (∀ ks i j a b, tie_free ks = true → ks !! i = Some a →
            ks !! j = Some b → (i < j)%nat →
            Float64.lt a b || Float64.lt b a = true) as Hord.
  { clear. induction ks as [|k ks IH]; intros i j a b Hf Hi Hj Hlt; [done|].
    simpl in Hf. apply andb_true_iff in Hf as [Hk Hf].
    destruct j as [|j]; [lia|]. destruct i as [|i]; simplify_eq/=.
    - rewrite forallb_forall in Hk. apply Hk.
      apply list_elem_of_In. by eapply list_elem_of_lookup_2.
    - eapply IH; eauto with lia. }
  intros Hf Hi Hj Hne.
  destruct (decide (i < j)%nat); [by eapply Hord|].
  rewrite orb_comm. eapply Hord; eauto with lia.
Qed.

(** Without ties the contract leaves one answer. *)
Lemma argsort_determined (l1 l2 : list nat) :
  tie_free keys = true →
  l1 ≡ₚ seq 0 (length keys) → Sorted (key_le keys) l1 →
  l2 ≡ₚ seq 0 (length keys) → Sorted (key_le keys) l2 →
  l1 = l2.
Proof.
  intros Hf Hp1 Hs1 Hp2 Hs2.
  apply (Sorted_unique_strong (key_le keys)); [|done..|by rewrite Hp1, Hp2].
  intros i j _ _ Hij Hji. unfold key_le in Hij, Hji.
  destruct (keys !! i) as [a|] eqn:Ha; [|done].
  destruct (keys !! j) as [b|] eqn:Hb; [|done].
  destruct (decide (i = j)) as [|Hne]; [done|].
  pose proof (tie_free_lookup _ _ _ _ Hf Ha Hb Hne) as Hor.
  unfold Float64.le in Hij, Hji.
  apply negb_true_iff in Hij, Hji. by rewrite Hij, Hji in Hor.
Qed.

End argsort_facts.

Lemma insertion_argsort_spec : argsort_spec insertion_argsort.
Proof. intros keys. by apply insertion_from_spec. Qed.

Lemma backward_argsort_spec : argsort_spec backward_argsort.
Proof. intros keys. apply insertion_from_spec, reverse_Permutation. Qed.

Lemma argsort_tie_free argsort keys :
  argsort_spec argsort → tie_free keys = true →
  argsort keys = insertion_argsort keys.
Proof.
  intros Hspec Hf.
  destruct (Hspec keys) as [Hp1 Hs1].
  destruct (insertion_argsort_spec keys) as [Hp2 Hs2].
  by eapply argsort_determined.
Qed.

Lemma graham_scan_tie_free argsort points :
  argsort_spec argsort → tie_free (slope <$> remaining points) = true →
  graham_scan argsort points = graham_scan insertion_argsort points.
Proof.
  intros Hspec Hf. unfold graham_scan, remaining in *.
  destruct (extract_primary points) as [[primary rem]|]; simpl; [|done].
  unfold sort_for_graham_scan. by rewrite (argsort_tie_free argsort).
Qed.

(** ** Indexing *)

Section indexing_facts.
Context {A : Type}.
Implicit Types (a : list A) (k : Z).

Lemma position_nonneg n k :
  0 ≤ k < Z.of_nat n → position n k = Some (Z.to_nat k).
Proof.
  intros Hk. unfold position.
  destruct (Z.ltb_spec k 0); [lia|].
  destruct (Z.leb_spec 0 k); [|lia].
  destruct (Z.ltb_spec k (Z.of_nat n)); [done|lia].
Qed.

Lemma getitem_lookup a k x :
  0 ≤ k → a !! Z.to_nat k = Some x → getitem a k = Ok x.
Proof.
  intros Hk Hx. unfold getitem.
  rewrite position_nonneg; [simpl; by rewrite Hx|].
  apply lookup_lt_Some in Hx. lia.
Qed.

Lemma getitem_Ok_nonneg a k x :
  0 ≤ k → getitem a k = Ok x → a !! Z.to_nat k = Some x.
Proof.
  intros Hk. unfold getitem.
  destruct (decide (k < Z.of_nat (length a))).
  - rewrite position_nonneg by lia. simpl.
    destruct (a !! Z.to_nat k); naive_solver.
  - unfold position. destruct (Z.ltb_spec k 0); [lia|].
    destruct (Z.ltb_spec k (Z.of_nat (length a))); [lia|].
    by rewrite andb_false_r.
Qed.

Lemma setitem_nonneg a k x :
  0 ≤ k < Z.of_nat (length a) → setitem a k x = Ok (<[Z.to_nat k:=x]> a).
Proof. intros Hk. unfold setitem. by rewrite position_nonneg. Qed.

Lemma fmap_lookup_total_seq `{!Inhabited A} a :
  (a !!!.) <$> seq 0 (length a) = a.
Proof.
  apply list_eq. intros i. rewrite list_lookup_fmap.
  destruct (decide (i < length a)%nat).
  - rewrite lookup_seq_lt by done. simpl.
    symmetry. by apply list_lookup_lookup_total_lt.
  - rewrite lookup_seq_ge, lookup_ge_None_2 by lia. done.
Qed.

Lemma mapM_getitem `{!Inhabited A} a (l : list nat) :
  Forall (λ j, (j < length a)%nat) l →
  mapM (λ j, getitem a (Z.of_nat j)) l = Ok ((a !!!.) <$> l).
Proof.
  induction 1 as [|j l Hj _ IH]; [done|].
  cbn [mapM]. rewrite IH.
  erewrite getitem_lookup; [done|lia|].
  rewrite Nat2Z.id. by apply list_lookup_lookup_total_lt.
Qed.

End indexing_facts.

(** ** The Angular Sorter *)

Section sort_facts.
Variable argsort : list Float64.t → list nat.
Hypothesis argsort_ok : argsort_spec argsort.

(** The rows in the order [argsort] names them. *)
Lemma sorted_points_spec (points : list point) :
  let sorted_points := (points !!!.) <$> argsort (slope <$> points) in
  mapM (λ j, getitem points (Z.of_nat j)) (argsort (slope <$> points))
    = Ok sorted_points
  ∧ sorted_points ≡ₚ points
  ∧ Sorted slope_le sorted_points.
Proof.
  destruct (argsort_ok (slope <$> points)) as [Hp Hs].
  rewrite length_fmap in Hp. split_and!.
  - apply mapM_getitem. rewrite Hp. apply Forall_seq. lia.
  - rewrite Hp. by rewrite fmap_lookup_total_seq.
  - eapply Sorted_fmap; [|exact Hs].
    intros i j. unfold key_le, slope_le. rewrite !list_lookup_fmap.
    destruct (points !! i) as [p|] eqn:Hi; [|done].
    destruct (points !! j) as [q|] eqn:Hj; [|done]. simpl.
    by rewrite (list_lookup_total_correct _ _ _ Hi),
               (list_lookup_total_correct _ _ _ Hj).
Qed.

Lemma sort_for_graham_scan_spec (points : list point) (primary : point) :
  let sorted_points := (points !!!.) <$> argsort (slope <$> points) in
  sort_for_graham_scan argsort points primary
    = Ok (slice sorted_points (Some (-1)) None ++ [primary] ++ sorted_points).
Proof.
  intros sorted_points. unfold sort_for_graham_scan.
  by destruct (sorted_points_spec points) as [-> _].
Qed.

End sort_facts.

(** ** Slices *)

Section slice_facts.
Context {A : Type}.
Implicit Types (a : list A).

Lemma slice_to a (k : nat) : slice a None (Some (Z.of_nat k)) = take k a.
Proof.
  unfold slice, bound. destruct (Z.ltb_spec (Z.of_nat k) 0); [lia|].
  rewrite Z.sub_0_r, drop_0. destruct (decide (k ≤ length a)%nat).
  - by rewrite Z.min_l, Nat2Z.id by lia.
  - rewrite Z.min_r, Nat2Z.id, !take_ge by lia. done.
Qed.

Lemma slice_from a (k : nat) : slice a (Some (Z.of_nat k)) None = drop k a.
Proof.
  unfold slice, bound. destruct (Z.ltb_spec (Z.of_nat k) 0); [lia|].
  rewrite take_ge; [|rewrite length_drop; lia].
  destruct (decide (k ≤ length a)%nat).
  - by rewrite Z.min_l, Nat2Z.id by lia.
  - rewrite Z.min_r, Nat2Z.id, !drop_ge by lia. done.
Qed.

Lemma slice_between a (lo hi : nat) :
  slice a (Some (Z.of_nat lo)) (Some (Z.of_nat hi)) = take (hi - lo) (drop lo a).
Proof.
  unfold slice, bound.
  destruct (Z.ltb_spec (Z.of_nat lo) 0); [lia|].
  destruct (Z.ltb_spec (Z.of_nat hi) 0); [lia|].
  destruct (decide (lo ≤ length a)%nat).
  - rewrite (Z.min_l (Z.of_nat lo)), Nat2Z.id by lia.
    destruct (decide (hi ≤ length a)%nat).
    + rewrite Z.min_l by lia. f_equal. lia.
    + rewrite Z.min_r by lia. rewrite !take_ge; [done|rewrite length_drop; lia..].
  - rewrite (Z.min_r (Z.of_nat lo)), Nat2Z.id by lia.
    rewrite !drop_ge by lia. by rewrite !take_nil.
Qed.

(** [a[-1:]] is the last row, or nothing. *)
Lemma slice_last a : slice a (Some (-1)) None = drop (length a - 1) a.
Proof.
  unfold slice. cbn [bound]. destruct (Z.ltb_spec (-1) 0); [|lia].
  rewrite take_ge; [|rewrite length_drop; lia].
  f_equal. lia.
Qed.

End slice_facts.

(** ** The Pivot Selector *)

Lemma argmin_Ok points k :
  argmin points = Ok k → ∃ j : nat, k = Z.of_nat j.
Proof. unfold argmin. destruct (ravel points); naive_solver. Qed.

(** What [extract_primary] returns: the row at the position of the least
    value of the flattened array, and the other rows in their order. *)
Lemma extract_primary_Ok points primary remaining_points :
  extract_primary points = Ok (primary, remaining_points) →
  ∃ j : nat, argmin points = Ok (Z.of_nat j)
    ∧ points !! j = Some primary
    ∧ remaining_points = take j points ++ drop (S j) points.
Proof.
  unfold extract_primary. intros H.
  destruct (argmin points) as [k|] eqn:Hk; [|done].
  destruct (argmin_Ok _ _ Hk) as [j ->]. cbn in H.
  destruct (getitem points (Z.of_nat j)) as [p|] eqn:Hp; [|done].
  cbn in H. simplify_eq. exists j.
  apply getitem_Ok_nonneg in Hp; [|lia]. rewrite Nat2Z.id in Hp.
  split_and!; [done..|].
  replace (Z.of_nat j + 1) with (Z.of_nat (S j)) by lia.
  by rewrite slice_to, slice_from.
Qed.

Lemma extract_primary_length points primary remaining_points :
  extract_primary points = Ok (primary, remaining_points) →
  length points = S (length remaining_points).
Proof.
  intros (j & _ & Hj & ->)%extract_primary_Ok.
  apply lookup_lt_Some in Hj.
  rewrite length_app, length_take, length_drop. lia.
Qed.

(** ** The Orientation Test *)

Lemma wrap_in_range z : Int64.in_range z → Int64.wrap z = z.
Proof.
  unfold Int64.in_range, Int64.wrap. intros Hz.
  rewrite Z.mod_small; lia.
Qed.

Lemma product_bound a b :
  - 2 ^ 31 < a < 2 ^ 31 → - 2 ^ 31 < b < 2 ^ 31 →
  - 2 ^ 62 < a * b < 2 ^ 62.
Proof.
  intros Ha Hb.
  assert (Z.abs a * Z.abs b < 2 ^ 31 * 2 ^ 31) as H by (apply Z.mul_lt_mono_nonneg; lia).
  rewrite <- Z.abs_mul in H. change (2 ^ 31 * 2 ^ 31) with (2 ^ 62) in H. lia.
Qed.

Lemma sub_small a b :
  - 2 ^ 30 < a < 2 ^ 30 → - 2 ^ 30 < b < 2 ^ 30 →
  Int64.sub a b = a - b ∧ - 2 ^ 31 < a - b < 2 ^ 31.
Proof.
  intros Ha Hb. unfold Int64.sub. rewrite wrap_in_range; [lia|].
  unfold Int64.in_range. lia.
Qed.

Lemma mul_small a b :
  - 2 ^ 31 < a < 2 ^ 31 → - 2 ^ 31 < b < 2 ^ 31 → Int64.mul a b = a * b.
Proof.
  intros Ha Hb. pose proof (product_bound a b Ha Hb).
  unfold Int64.mul. apply wrap_in_range. unfold Int64.in_range. lia.
Qed.

Lemma add_small a b :
  - 2 ^ 62 < a < 2 ^ 62 → - 2 ^ 62 < b < 2 ^ 62 → Int64.add a b = a + b.
Proof.
  intros Ha Hb. unfold Int64.add. apply wrap_in_range.
  unfold Int64.in_range. lia.
Qed.

Lemma opposite_signs_mul a b : opposite_signs a b = (a * b <? 0).
Proof.
  unfold opposite_signs.
  destruct (Z.ltb_spec a 0), (Z.ltb_spec 0 b), (Z.ltb_spec 0 a),
    (Z.ltb_spec b 0), (Z.ltb_spec (a * b) 0); simpl; try done; nia.
Qed.

(** On small coordinates [ccw] is the Orientation Test on exact integers. *)
Lemma ccw_orientation_test p1 p2 p3 :
  small p1 → small p2 → small p3 → ccw p1 p2 p3 = orientation_test p1 p2 p3.
Proof.
  intros [Hx1 Hy1] [Hx2 Hy2] [Hx3 Hy3]. unfold ccw, orientation_test.
  destruct (sub_small p2.1 p1.1) as [-> Hdx1]; [done..|].
  destruct (sub_small p2.2 p1.2) as [-> Hdy1]; [done..|].
  destruct (sub_small p3.1 p1.1) as [-> Hdx2]; [done..|].
  destruct (sub_small p3.2 p1.2) as [-> Hdy2]; [done..|].
  rewrite !mul_small by done.
  rewrite !add_small by (by apply product_bound).
  by rewrite !opposite_signs_mul.
Qed.

(** C2 as stated fails: the coordinates are int64 and the differences,
    products and sums of [ccw] wrap around.  With p1 = [0,0],
    p2 = [2^32,0] and p3 = [0,2^32] the product dx1*dy2 = 2^64 is computed
    as 0 and [ccw] answers collinear where the cascade says right-turn;
    with p3 = [2^31,0] the product dx1*dx2 = 2^63 is computed as −2^63 and
    [ccw] answers left-turn where the cascade says collinear.  Already at
    coordinates of magnitude 2^30 a sum of two squares reaches 2^63: for
    p1 = [−2^30,−2^30], p2 = [2^30,2^30], p3 = [0,0] the squared length of
    (dx1,dy1) is computed as −2^63 and [ccw] answers right-turn where the
    cascade says collinear. *)
Lemma ccw_wraps_around :
  ccw (0,0) (2^32,0) (0,2^32) = collinear
  ∧ orientation_test (0,0) (2^32,0) (0,2^32) = clockwise
  ∧ ccw (0,0) (2^32,0) (2^31,0) = counter_clockwise
  ∧ orientation_test (0,0) (2^32,0) (2^31,0) = collinear
  ∧ ccw (-2^30,-2^30) (2^30,2^30) (0,0) = clockwise
  ∧ orientation_test (-2^30,-2^30) (2^30,2^30) (0,0) = collinear.
Proof. split_and!; vm_compute; reflexivity. Qed.

(** C2, amended.  For every three points whose coordinates are below 2^30
    in magnitude the orientation test follows the cascade: with
    dx1 = p2.x − p1.x, dy1 = p2.y − p1.y, dx2 = p3.x − p1.x and
    dy2 = p3.y − p1.y, all on exact integers, it reports right-turn (the
    positive result) if dx1*dy2 > dy1*dx2, left-turn if dx1*dy2 < dy1*dx2;
    otherwise left-turn if the x-components or the y-components of the
    two vectors have opposite signs; otherwise right-turn if the squared
    length of (dx1,dy1) is less than that of (dx2,dy2); otherwise
    collinear. *)
Theorem ccw_cascade (p1 p2 p3 : point) :
  small p1 → small p2 → small p3 →
  let dx1 := p2.1 - p1.1 in
  let dy1 := p2.2 - p1.2 in
  let dx2 := p3.1 - p1.1 in
  let dy2 := p3.2 - p1.2 in
  let opposite :=
    (dx1 < 0 ∧ 0 < dx2) ∨ (0 < dx1 ∧ dx2 < 0)
    ∨ (dy1 < 0 ∧ 0 < dy2) ∨ (0 < dy1 ∧ dy2 < 0) in
  let shorter := dx1 * dx1 + dy1 * dy1 < dx2 * dx2 + dy2 * dy2 in
  (dx1 * dy2 > dy1 * dx2 → ccw p1 p2 p3 = clockwise)
  ∧ (dx1 * dy2 < dy1 * dx2 → ccw p1 p2 p3 = counter_clockwise)
  ∧ (dx1 * dy2 = dy1 * dx2 → opposite → ccw p1 p2 p3 = counter_clockwise)
  ∧ (dx1 * dy2 = dy1 * dx2 → ¬ opposite → shorter → ccw p1 p2 p3 = clockwise)
  ∧ (dx1 * dy2 = dy1 * dx2 → ¬ opposite → ¬ shorter → ccw p1 p2 p3 = collinear)
  ∧ ccw p1 p2 p3 = orientation_test p1 p2 p3.
Proof.
  intros H1 H2 H3 dx1 dy1 dx2 dy2 opposite shorter.
  rewrite (ccw_orientation_test p1 p2 p3 H1 H2 H3).
  unfold orientation_test, opposite_signs, opposite, shorter.
  fold dx1 dy1 dx2 dy2. rewrite Z.gtb_ltb.
  split_and!; [..|done]; intros;
    repeat match goal with
      | |- context [?a <? ?b] => destruct (Z.ltb_spec a b); simpl
      end; try done; try lia; tauto.
Qed.

Lemma ccw_cascade_witness :
  (small (4,4) ∧ small (6,3) ∧ small (2,5))
  ∧ ccw (4,4) (6,3) (2,5) = counter_clockwise
  ∧ ccw (4,4) (6,3) (2,5) = orientation_test (4,4) (6,3) (2,5).
Proof.
  assert (small (4,4) ∧ small (6,3) ∧ small (2,5)) as H.
  { unfold small; simpl; lia. }
  split; [exact H|].
  destruct H as (H1 & H2 & H3).
  pose proof (ccw_cascade (4,4) (6,3) (2,5) H1 H2 H3) as (_ & _ & Hopp & _ & _ & Heq).
  split; [apply Hopp; simpl; lia|exact Heq].
Defined.

(** ** Scenarios and errors *)

Example round_third :
  Qeq (Float64.round (1 # 3)) (6004799503160661 # Z.to_pos (2 ^ 54)).
Proof. vm_compute. reflexivity. Qed.

Example round_tenth :
  Qeq (Float64.round (1 # 10)) (3602879701896397 # Z.to_pos (2 ^ 55)).
Proof. vm_compute. reflexivity. Qed.

Example of_int64_ties_to_even :
  Qeq (Float64.of_int64 (2 ^ 53 + 1)) (inject_Z (2 ^ 53))
  ∧ Qeq (Float64.of_int64 (2 ^ 53 + 3)) (inject_Z (2 ^ 53 + 4))
  ∧ Qeq (Float64.of_int64 (- (2 ^ 62 + 1))) (inject_Z (- 2 ^ 62))
  ∧ Qeq (Float64.of_int64 12345) (inject_Z 12345).
Proof. split_and!; vm_compute; reflexivity. Qed.

(** C1.  For the input of [main],
    [[1,1],[2,5],[3,2],[4,4],[5,2],[6,3],[2,3],[3,4],[5,3]], [graham_scan]
    returns exactly the hull [1,1],[5,2],[6,3],[4,4],[2,5], in that order
    (the eight keys differ, so every [argsort] gives the same order). *)
Theorem scenario1_hull argsort :
  argsort_spec argsort →
  graham_scan argsort scenario1 = Ok [(1,1); (5,2); (6,3); (4,4); (2,5)].
Proof.
  intros Hspec. rewrite graham_scan_tie_free; [|done|];
    vm_compute; reflexivity.
Qed.

Lemma scenario1_hull_witness :
  argsort_spec insertion_argsort
  ∧ graham_scan insertion_argsort scenario1
    = Ok [(1,1); (5,2); (6,3); (4,4); (2,5)].
Proof.
  split; [exact insertion_argsort_spec|].
  exact (scenario1_hull insertion_argsort insertion_argsort_spec).
Defined.

(** C3.  Claim: for every non-empty point set the Pivot Selector returns
    the lexicographically smallest point (x first, then y) as pivot, and
    the other points in their original order.  The code departs from it:
    [extract_primary] takes the index [np.argmin] gives for the flattened
    array as a row index: on
    [[3,1],[2,2],[1,5]] the least value, 1, is at flat index 1, and the
    primary point is row 1, [2,2], while the lexicographically smallest
    point is [1,5]; on [[5,5],[3,0]] the flat index 3 is not a row and the
    indexing raises. *)
Theorem extract_primary_flat_index :
  extract_primary [(3,1); (2,2); (1,5)] = Ok ((2,2), [(3,1); (1,5)])
  ∧ lex_lt (1,5) (2,2)
  ∧ extract_primary [(5,5); (3,0)] = Raise IndexError.
Proof. split_and!; [reflexivity|left; simpl; lia|reflexivity]. Qed.

(** C4.  On the empty point set the hull computation fails: [np.argmin]
    raises (numpy's ValueError for an empty sequence) in [extract_primary],
    and nothing catches it on the way to the caller of [graham_scan]. *)
Theorem empty_input_raises argsort :
  extract_primary [] = Raise ValueError
  ∧ graham_scan argsort [] = Raise ValueError.
Proof. split; reflexivity. Qed.

(** C5 as stated fails: with pivot [-1,0] and remaining point [0,5] the
    division gives +inf, nothing is raised and a hull is returned. *)
Lemma zero_x_no_error :
  extract_primary [(-1,0); (0,5)] = Ok ((-1,0), [(0,5)])
  ∧ slope (0,5) = Float64.PosInf
  ∧ graham_scan insertion_argsort [(-1,0); (0,5)] = Ok [(-1,0); (0,5)].
Proof. split_and!; reflexivity. Qed.

(** C5, amended.  For every input whose remaining set (pivot excluded)
    contains some point with x == 0, the Angular Sorter raises nothing:
    the key y/x of that point is +inf, -inf or NaN as y is positive,
    negative or zero, the point is in the sequence handed to the sweep,
    and the hull computation goes on with the sweep of that sequence. *)
Theorem zero_x_is_sorted argsort points primary remaining_points p :
  argsort_spec argsort →
  extract_primary points = Ok (primary, remaining_points) →
  p ∈ remaining_points → p.1 = 0 →
  slope p = (if 0 <? p.2 then Float64.PosInf
             else if p.2 <? 0 then Float64.NegInf else Float64.NaN)
  ∧ ∃ sorted_points,
      sort_for_graham_scan argsort remaining_points primary = Ok sorted_points
      ∧ p ∈ sorted_points
      ∧ graham_scan argsort points = find_hull_vertices sorted_points.
Proof.
  intros Hspec Hext Hp Hx. split.
  { unfold slope, Float64.true_divide. by rewrite Hx. }
  eexists. split; [by apply sort_for_graham_scan_spec|].
  destruct (sorted_points_spec argsort Hspec remaining_points) as (_ & Hperm & _).
  split.
  - rewrite !elem_of_app. right. right. by rewrite Hperm.
  - unfold graham_scan. rewrite Hext. cbn.
    rewrite sort_for_graham_scan_spec by done. cbn.
    by destruct (find_hull_vertices _).
Qed.

Lemma zero_x_is_sorted_witness :
  (argsort_spec insertion_argsort
   ∧ extract_primary [(-1,0); (0,5)] = Ok ((-1,0), [(0,5)])
   ∧ (0,5) ∈ [(0,5)] ∧ (0,5).1 = 0)
  ∧ slope (0,5) = Float64.PosInf
  ∧ ∃ sorted_points,
      sort_for_graham_scan insertion_argsort [(0,5)] (-1,0) = Ok sorted_points
      ∧ (0,5) ∈ sorted_points
      ∧ graham_scan insertion_argsort [(-1,0); (0,5)]
        = find_hull_vertices sorted_points.
Proof.
  assert ((0,5) ∈ [(0,5)]) as Hin by apply list_elem_of_here.
  split; [split_and!; [exact insertion_argsort_spec|reflexivity|exact Hin|reflexivity]|].
  exact (zero_x_is_sorted insertion_argsort [(-1,0); (0,5)] (-1,0) [(0,5)] (0,5)
           insertion_argsort_spec eq_refl Hin eq_refl).
Defined.

(** The contract of [np.argsort] leaves the order of ties open:
    [backward_argsort] meets it, the keys of [1,1] and [2,2] tie, and with
    it [2,2] comes first in the sorted sequence.  Which order the sort of
    numpy gives on ties is decided by code outside this program. *)
Lemma sort_ties_not_stable :
  argsort_spec backward_argsort
  ∧ Float64.lt (slope (1,1)) (slope (2,2)) = false
  ∧ Float64.lt (slope (2,2)) (slope (1,1)) = false
  ∧ sort_for_graham_scan backward_argsort [(1,1); (2,2)] (0,0)
    = Ok [(1,1); (0,0); (2,2); (1,1)].
Proof. split_and!; [exact backward_argsort_spec|reflexivity..]. Qed.

(** X26.  [sort_for_graham_scan] orders the points ascending by the key
    y / x computed on each point's raw coordinates (the primary point
    plays no part in the key), NaN keys last; it returns the last sorted
    point, the primary point, and the sorted points.  This holds for
    every [argsort] that meets the contract, whatever it does with ties. *)
Theorem sort_ascending argsort points primary :
  argsort_spec argsort →
  ∃ sorted_points,
    sort_for_graham_scan argsort points primary
      = Ok (slice sorted_points (Some (-1)) None ++ [primary] ++ sorted_points)
    ∧ sorted_points ≡ₚ points
    ∧ Sorted slope_le sorted_points.
Proof.
  intros Hspec. eexists. split; [by apply sort_for_graham_scan_spec|].
  by destruct (sorted_points_spec argsort Hspec points) as (_ & ? & ?).
Qed.

Lemma sort_ascending_witness :
  argsort_spec insertion_argsort
  ∧ ∃ sorted_points,
      sort_for_graham_scan insertion_argsort [(2,5); (3,2); (4,4)] (1,1)
        = Ok (slice sorted_points (Some (-1)) None ++ [(1,1)] ++ sorted_points)
      ∧ sorted_points ≡ₚ [(2,5); (3,2); (4,4)]
      ∧ Sorted slope_le sorted_points.
Proof.
  split; [exact insertion_argsort_spec|].
  exact (sort_ascending insertion_argsort [(2,5); (3,2); (4,4)] (1,1)
           insertion_argsort_spec).
Defined.

(** ** The backtracking loop *)

Lemma getitem_Ok_range {A} (a : list A) k x :
  getitem a k = Ok x → - Z.of_nat (length a) ≤ k < Z.of_nat (length a).
Proof.
  unfold getitem, position. intros H.
  destruct (Z.ltb_spec k 0);
    destruct (Z.leb_spec 0 (k + Z.of_nat (length a)));
    destruct (Z.leb_spec 0 k);
    destruct (Z.ltb_spec k (Z.of_nat (length a)));
    destruct (Z.ltb_spec (k + Z.of_nat (length a)) (Z.of_nat (length a)));
    simpl in H; try done; lia.
Qed.

Lemma backtrack_unfold fuel points M i :
  backtrack fuel points M i =
    t ← turn_at points M i;
    if 0 <=? t then
      match fuel with
      | O => Raise IndexError
      | S fuel => backtrack fuel points (M - 1) i
      end
    else Ok M.
Proof.
  unfold turn_at. destruct fuel; simpl;
    destruct (getitem points M); simpl; try done;
    destruct (getitem points (M - 1)); simpl; try done;
    destruct (getitem points i); simpl; done.
Qed.

Lemma turn_at_Ok_range points M i t :
  turn_at points M i = Ok t →
  1 - Z.of_nat (length points) ≤ M < Z.of_nat (length points).
Proof.
  unfold turn_at. intros H.
  destruct (getitem points M) as [p1|] eqn:H1; [|done].
  destruct (getitem points (M - 1)) as [p2|] eqn:H2; [|done].
  apply getitem_Ok_range in H1, H2. lia.
Qed.

(** The loop needs no more rounds than [M + N]: more fuel changes nothing,
    and the branch that runs out of fuel is never taken. *)
Lemma backtrack_fuel points i fuel fuel' M :
  (Z.to_nat (M + Z.of_nat (length points)) ≤ fuel)%nat →
  (Z.to_nat (M + Z.of_nat (length points)) ≤ fuel')%nat →
  backtrack fuel points M i = backtrack fuel' points M i.
Proof.
  revert fuel' M. induction fuel as [|fuel IH]; intros fuel' M Hf Hf';
    rewrite (backtrack_unfold _ points M), (backtrack_unfold fuel' points M);
    destruct (turn_at points M i) as [t|] eqn:Ht; simpl; try done;
    apply turn_at_Ok_range in Ht;
    destruct (0 <=? t); try done;
    destruct fuel' as [|fuel']; try lia; try done.
  apply IH; lia.
Qed.

Lemma backtrack_Ok fuel points M i M' :
  backtrack fuel points M i = Ok M' →
  1 - Z.of_nat (length points) ≤ M' ≤ M
  ∧ (∃ t, turn_at points M' i = Ok t ∧ t < 0)
  ∧ (∀ k, M' < k ≤ M → ∃ t, turn_at points k i = Ok t ∧ 0 ≤ t).
Proof.
  revert M. induction fuel as [|fuel IH]; intros M;
    rewrite backtrack_unfold;
    destruct (turn_at points M i) as [t|] eqn:Ht; simpl; try done;
    pose proof (turn_at_Ok_range _ _ _ _ Ht);
    destruct (Z.leb_spec 0 t); try done.
  - intros [= <-]. split_and!; [lia..|by eauto|lia].
  - intros (? & ? & Hk)%IH. split_and!; [lia..|done|].
    intros k ?. destruct (decide (k = M)) as [->|]; [by eauto|].
    apply Hk. lia.
  - intros [= <-]. split_and!; [lia..|by eauto|lia].
Qed.




(** ** The sweep while no backtracking passes the pivot *)

Lemma swap_nonneg points li ri points' :
  0 ≤ li → 0 ≤ ri → swap points li ri = Ok points' →
  ∃ a c, points !! Z.to_nat li = Some a
    ∧ points !! Z.to_nat ri = Some c
    ∧ points' = <[Z.to_nat ri := a]> (<[Z.to_nat li := c]> points).
Proof.
  intros Hl Hr. unfold swap.
  destruct (getitem points li) as [a|] eqn:Ha; [|done].
  destruct (getitem points ri) as [c|] eqn:Hc; [|done]. cbn.
  apply getitem_Ok_nonneg in Ha, Hc; [|done..].
  pose proof (lookup_lt_Some _ _ _ Ha). pose proof (lookup_lt_Some _ _ _ Hc).
  rewrite setitem_nonneg by lia. cbn.
  rewrite setitem_nonneg by (rewrite length_insert; lia).
  intros [= <-]. eauto.
Qed.

Lemma turn_at_nonneg points M i t :
  1 ≤ M → 0 ≤ i → turn_at points M i = Ok t →
  ∃ p1 p2 p3,
    points !! Z.to_nat M = Some p1
    ∧ points !! Z.to_nat (M - 1) = Some p2
    ∧ points !! Z.to_nat i = Some p3
    ∧ t = ccw p1 p2 p3.
Proof.
  intros HM Hi. unfold turn_at.
  destruct (getitem points M) as [p1|] eqn:H1; [|done].
  destruct (getitem points (M - 1)) as [p2|] eqn:H2; [|done].
  destruct (getitem points i) as [p3|] eqn:H3; [|done]. cbn.
  apply getitem_Ok_nonneg in H1, H2, H3; [|lia..].
  intros [= <-]. by exists p1, p2, p3.
Qed.

(** One round that stops at a cursor of at least 1: the candidate is put
    on top of the rows it did not pop, after a left turn. *)
Lemma sweep_step_guarded points M i points' M2 :
  2 ≤ M < i →
  sweep_step (points, M) i = Ok (points', M2) → 1 < M2 →
  ∃ p1 p2 c,
    M2 ≤ M + 1
    ∧ points !! Z.to_nat (M2 - 1) = Some p1
    ∧ points !! Z.to_nat (M2 - 2) = Some p2
    ∧ points !! Z.to_nat i = Some c
    ∧ ccw p1 p2 c < 0
    ∧ points' !! Z.to_nat M2 = Some c
    ∧ (∀ j : nat, j ≠ Z.to_nat M2 → j ≠ Z.to_nat i → points' !! j = points !! j)
    ∧ length points' = length points.
Proof.
  intros HM. unfold sweep_step.
  destruct (backtrack _ points M i) as [M'|] eqn:Hb; [|done]. cbn.
  destruct (swap points (M' + 1) i) as [arr|] eqn:Hs; [|done]. cbn.
  intros [= <- <-] HM2.
  apply backtrack_Ok in Hb as (HM' & (t & Ht & Hneg) & _).
  apply turn_at_nonneg in Ht as (p1 & p2 & c & H1 & H2 & Hc & ->); [|lia..].
  apply swap_nonneg in Hs as (a & c' & Ha & Hc' & ->); [|lia..].
  assert (c' = c) as -> by congruence.
  pose proof (lookup_lt_Some _ _ _ Ha). pose proof (lookup_lt_Some _ _ _ Hc).
  exists p1, p2, c. split_and!; try done.
  - lia.
  - by replace (M' + 1 - 1) with M' by lia.
  - by replace (M' + 1 - 2) with (M' - 1) by lia.
  - rewrite list_lookup_insert. case_decide as Hd.
    + destruct Hd as [Hd _]. rewrite Hd in Hc. congruence.
    + rewrite list_lookup_insert_eq; [done|lia].
  - intros j Hj1 Hj2. by rewrite !list_lookup_insert_ne.
  - by rewrite !length_insert.
Qed.

Lemma sweep_step_inv points M i points' M2 :
  sweep_inv points M i →
  sweep_step (points, M) i = Ok (points', M2) → 1 < M2 →
  sweep_inv points' M2 (i + 1)
  ∧ length points' = length points
  ∧ points' !! 1%nat = points !! 1%nat.
Proof.
  intros [Hcur Hleft Hsorted] Hstep HM2.
  destruct (sweep_step_guarded _ _ _ _ _ Hcur Hstep HM2)
    as (p1 & p2 & c & Hle & H1 & H2 & Hc & Hneg & Htop & Hsame & Hlen).
  assert (∀ j, 0 ≤ j → j ≠ M2 → j ≠ i →
            points' !! Z.to_nat j = points !! Z.to_nat j) as Hsame'.
  { intros j ? ? ?. apply Hsame; lia. }
  split_and!; [split| |].
  - lia.
  - intros k Hk. destruct (decide (k + 1 = M2)) as [Heq|Hne].
    + exists p1, p2, c. rewrite Heq, !Hsame' by lia.
      replace k with (M2 - 1) by lia.
      by replace (M2 - 1 - 1) with (M2 - 2) by lia.
    + destruct (Hleft k) as (q1 & q2 & q3 & ? & ? & ? & ?); [lia|].
      exists q1, q2, q3. by rewrite !Hsame' by lia.
  - intros j1 j2 p q Hl1 Hl2 Hlt Hp Hq.
    assert (∀ j, live M2 (i + 1) j → j ≠ M2 → live M i j ∧ j ≠ i) as Hlive.
    { unfold live. lia. }
    assert (∀ j, live M2 (i + 1) j → 0 ≤ j) as Hpos.
    { unfold live. lia. }
    assert (live M i i) as Hi by (unfold live; lia).
    destruct (decide (j1 = M2)) as [->|Hn1], (decide (j2 = M2)) as [->|Hn2].
    + lia.
    + destruct (Hlive _ Hl2 Hn2) as [Hl2' ?].
      rewrite Hsame' in Hq by (try apply Hpos; done).
      assert (p = c) as -> by congruence.
      apply (Hsorted i j2); try done. unfold live in Hl2. lia.
    + destruct (Hlive _ Hl1 Hn1) as [Hl1' ?].
      rewrite Hsame' in Hp by (try apply Hpos; done).
      assert (q = c) as -> by congruence.
      apply (Hsorted j1 i); try done. unfold live in Hl1. lia.
    + destruct (Hlive _ Hl1 Hn1) as [Hl1' ?].
      destruct (Hlive _ Hl2 Hn2) as [Hl2' ?].
      rewrite Hsame' in Hp, Hq by (try apply Hpos; done).
      by apply (Hsorted j1 j2).
  - done.
  - apply (Hsame 1%nat); lia.
Qed.

Lemma sweep_rounds_inv (n : nat) : ∀ i points M,
  sweep_inv points M i →
  rounds_stop_above 1 (seqZ i (Z.of_nat n)) (points, M) = true →
  ∃ points' M',
    for_each sweep_step (seqZ i (Z.of_nat n)) (points, M) = Ok (points', M')
    ∧ sweep_inv points' M' (i + Z.of_nat n)
    ∧ length points' = length points
    ∧ points' !! 1%nat = points !! 1%nat.
Proof.
  induction n as [|n IH]; intros i points M Hinv.
  { rewrite seqZ_nil by lia. intros _. exists points, M.
    by rewrite Z.add_0_r. }
  rewrite seqZ_cons by lia.
  replace (Z.pred (Z.of_nat (S n))) with (Z.of_nat n) by lia.
  cbn [rounds_stop_above for_each].
  destruct (sweep_step (points, M) i) as [[points1 M1]|] eqn:Hstep; [|done].
  intros [HM1%Z.ltb_lt Hrest]%andb_true_iff. cbn in HM1 |- *.
  destruct (sweep_step_inv _ _ _ _ _ Hinv Hstep HM1) as (Hinv1 & Hlen1 & Hp1).
  destruct (IH (Z.succ i) points1 M1) as (points' & M' & Hrun & Hinv' & Hlen & Hp).
  { by replace (Z.succ i) with (i + 1) by lia. }
  { done. }
  exists points', M'. split_and!; [done| |congruence..].
  by replace (i + Z.of_nat (S n)) with (Z.succ i + Z.of_nat n) by lia.
Qed.

(** The sweep of an array on which the invariant holds at the start and
    no backtracking passes the pivot. *)
Lemma find_hull_vertices_guarded points :
  sweep_inv points 3 4 → sentinel_stops points = true →
  ∃ points' M i,
    find_hull_vertices points = Ok (slice points' (Some 1) (Some (M + 1)))
    ∧ sweep_inv points' M i
    ∧ length points' = length points
    ∧ points' !! 1%nat = points !! 1%nat.
Proof.
  intros Hinv Hstops. unfold sentinel_stops, range in Hstops.
  unfold find_hull_vertices, range.
  set (N := Z.of_nat (length points)) in *.
  destruct (decide (N - 4 ≤ 0)) as [Hle|Hgt].
  - rewrite seqZ_nil by done. cbn. by exists points, 3, 4.
  - replace (N - 4) with (Z.of_nat (Z.to_nat (N - 4))) in * by lia.
    destruct (sweep_rounds_inv _ _ _ _ Hinv Hstops)
      as (points' & M' & -> & Hinv' & Hlen & Hp).
    cbn. by exists points', M', (4 + Z.of_nat (Z.to_nat (N - 4))).
Qed.

Global Instance slope_le_trans : Transitive slope_le.
Proof. intros p q r. apply Float64Facts.le_trans. Qed.

Lemma StronglySorted_lookup_lt {A} (R : relation A) l i j x y :
  StronglySorted R l → l !! i = Some x → l !! j = Some y → (i < j)%nat → R x y.
Proof.
  intros Hl. revert i j. induction Hl as [|z l _ IH Hz]; intros i j Hi Hj Hlt.
  { done. }
  destruct j as [|j]; [lia|]. destruct i as [|i]; simplify_eq/=.
  - eapply Forall_lookup_1; eauto.
  - eapply IH; eauto with lia.
Qed.

(** The array built by [sort_for_graham_scan]: a last row in front when
    there is one, the primary point, and the rows in ascending order. *)
Lemma sorted_array_inv (sorted_points : list point) primary :
  Sorted slope_le sorted_points →
  sweep_inv (slice sorted_points (Some (-1)) None ++ primary :: sorted_points) 3 4.
Proof.
  intros Hs%Sorted_StronglySorted; [|apply _]. rewrite slice_last.
  change (primary :: sorted_points) with ([primary] ++ sorted_points).
  split; [lia..|].
  intros j1 j2 p q Hl1 Hl2 Hlt. unfold live in Hl1, Hl2.
  destruct sorted_points as [|s sorted_points]; simpl length.
  { cbn. intros Hp. apply lookup_lt_Some in Hp. simpl in Hp. lia. }
  replace (S (length sorted_points) - 1)%nat with (length sorted_points) by lia.
  set (l := s :: sorted_points) in *.
  assert (length (drop (length sorted_points) l) = 1%nat) as Hlen.
  { rewrite length_drop. simpl. lia. }
  rewrite !lookup_app_r; rewrite ?Hlen; simpl length; try lia.
  replace (Z.to_nat j1 - 1 - 1)%nat with (Z.to_nat (j1 - 2)) by lia.
  replace (Z.to_nat j2 - 1 - 1)%nat with (Z.to_nat (j2 - 2)) by lia.
  intros Hp Hq. eapply StronglySorted_lookup_lt; eauto. lia.
Qed.

(** ** The first point of the hull *)

Lemma graham_scan_unfold argsort points primary remaining_points sorted_points :
  extract_primary points = Ok (primary, remaining_points) →
  sort_for_graham_scan argsort remaining_points primary = Ok sorted_points →
  graham_scan argsort points = find_hull_vertices sorted_points.
Proof.
  intros Hext Hsort. unfold graham_scan. rewrite Hext. cbn.
  rewrite Hsort. cbn. by destruct (find_hull_vertices _).
Qed.

Lemma slice_pivot_first (points : list point) M primary :
  2 ≤ M → points !! 1%nat = Some primary →
  slice points (Some 1) (Some (M + 1))
    = primary :: take (Z.to_nat (M - 1)) (drop 2 points).
Proof.
  intros HM Hp.
  assert (slice points (Some 1) (Some (M + 1))
          = slice points (Some (Z.of_nat 1)) (Some (Z.of_nat (Z.to_nat (M + 1)))))
    as -> by (by rewrite Z2Nat.id by lia).
  rewrite slice_between, (drop_S _ _ _ Hp).
  replace (Z.to_nat (M + 1) - 1)%nat with (S (Z.to_nat (M - 1))) by lia.
  done.
Qed.

(** C8.  Claim: for every non-empty input the first element of the
    returned hull is the pivot of the Pivot Selector, the
    lexicographically smallest point.  The code departs from it.  On
    [[1,6],[4,3],[6,1],[3,5],[5,1],[2,5]] [extract_primary] returns
    [1,6], which is the lexicographically smallest point, and
    [sort_for_graham_scan] puts it at row 1 of the working array; the
    first backtracking of [find_hull_vertices] runs past it (the sweep
    does not stop at a cursor M ≥ 1), the candidate is swapped into row 1
    and the pivot is lost: whatever [np.argsort] does (the five keys
    differ), the hull returned is [3,5],[2,5], which neither starts with
    the pivot nor contains it. *)
Theorem hull_without_pivot argsort :
  argsort_spec argsort →
  extract_primary six_points = Ok ((1,6), [(4,3); (6,1); (3,5); (5,1); (2,5)])
  ∧ (∀ p, p ∈ six_points → p = (1,6) ∨ lex_lt (1,6) p)
  ∧ sort_for_graham_scan argsort [(4,3); (6,1); (3,5); (5,1); (2,5)] (1,6)
    = Ok six_points_sorted
  ∧ sentinel_stops six_points_sorted = false
  ∧ graham_scan argsort six_points = Ok [(3,5); (2,5)]
  ∧ (1,6) ∉ [(3,5); (2,5)].
Proof.
  intros Hspec.
  assert (tie_free (slope <$> [(4,3); (6,1); (3,5); (5,1); (2,5)]) = true)
    as Hfree by (vm_compute; reflexivity).
  split_and!.
  - vm_compute; reflexivity.
  - clear Hfree. intros p Hp. unfold six_points in Hp.
    rewrite !elem_of_cons, elem_of_nil in Hp.
    destruct_or!; subst; try done; [by left|right; unfold lex_lt; simpl; lia..].
  - unfold sort_for_graham_scan. rewrite (argsort_tie_free argsort _ Hspec Hfree).
    vm_compute; reflexivity.
  - vm_compute; reflexivity.
  - rewrite graham_scan_tie_free; [|done|]; vm_compute; reflexivity.
  - clear Hfree. rewrite !not_elem_of_cons.
    split_and!; [done..|apply not_elem_of_nil].
Qed.

Lemma hull_without_pivot_witness :
  argsort_spec insertion_argsort
  ∧ graham_scan insertion_argsort six_points = Ok [(3,5); (2,5)].
Proof.
  split; [exact insertion_argsort_spec|].
  exact (proj1 (proj2 (proj2 (proj2 (proj2
    (hull_without_pivot insertion_argsort insertion_argsort_spec)))))).
Defined.

(** X24.  For every input of at least two points on which every
    backtracking of the sweep stops at a cursor M ≥ 1, the first element
    of the returned hull is the primary point [extract_primary] returned. *)
Theorem pivot_first argsort points primary remaining_points sorted_points :
  argsort_spec argsort →
  (2 ≤ length points)%nat →
  extract_primary points = Ok (primary, remaining_points) →
  sort_for_graham_scan argsort remaining_points primary = Ok sorted_points →
  sentinel_stops sorted_points = true →
  ∃ hull, graham_scan argsort points = Ok (primary :: hull).
Proof.
  intros Hspec Hlen Hext Hsort Hstops.
  pose proof (extract_primary_length _ _ _ Hext) as Hrem.
  destruct (sorted_points_spec argsort Hspec remaining_points) as (_ & Hperm & Hsorted).
  rewrite (graham_scan_unfold _ _ _ _ _ Hext Hsort).
  rewrite sort_for_graham_scan_spec in Hsort by done.
  injection Hsort as <-.
  set (l := (remaining_points !!!.) <$> _) in *.
  pose proof (sorted_array_inv l primary Hsorted) as Hinv.
  destruct (find_hull_vertices_guarded _ Hinv Hstops)
    as (points' & M & i & -> & [Hcur _ _] & _ & Hp).
  assert (length l = length remaining_points) as Hl by by rewrite Hperm.
  rewrite slice_last, lookup_app_r in Hp; rewrite length_drop in *; [|lia].
  replace (1 - (length l - (length l - 1)))%nat with 0%nat in Hp by lia.
  rewrite (slice_pivot_first _ _ primary) by (done || lia). eauto.
Qed.

Lemma pivot_first_witness :
  (argsort_spec insertion_argsort
   ∧ (2 ≤ length scenario1)%nat
   ∧ extract_primary scenario1
     = Ok ((1,1), [(2,5); (3,2); (4,4); (5,2); (6,3); (2,3); (3,4); (5,3)])
   ∧ sort_for_graham_scan insertion_argsort
       [(2,5); (3,2); (4,4); (5,2); (6,3); (2,3); (3,4); (5,3)] (1,1)
     = Ok [(2,5); (1,1); (5,2); (6,3); (5,3); (3,2); (4,4); (3,4); (2,3); (2,5)]
   ∧ sentinel_stops
       [(2,5); (1,1); (5,2); (6,3); (5,3); (3,2); (4,4); (3,4); (2,3); (2,5)] = true)
  ∧ ∃ hull, graham_scan insertion_argsort scenario1 = Ok ((1,1) :: hull).
Proof.
  assert (2 ≤ length scenario1)%nat as Hlen by (simpl; lia).
  assert (extract_primary scenario1
          = Ok ((1,1), [(2,5); (3,2); (4,4); (5,2); (6,3); (2,3); (3,4); (5,3)]))
    as Hext by (vm_compute; reflexivity).
  assert (sort_for_graham_scan insertion_argsort
            [(2,5); (3,2); (4,4); (5,2); (6,3); (2,3); (3,4); (5,3)] (1,1)
          = Ok [(2,5); (1,1); (5,2); (6,3); (5,3); (3,2); (4,4); (3,4); (2,3); (2,5)])
    as Hsort by (vm_compute; reflexivity).
  assert (sentinel_stops
            [(2,5); (1,1); (5,2); (6,3); (5,3); (3,2); (4,4); (3,4); (2,3); (2,5)]
          = true)
    as Hstops by (vm_compute; reflexivity).
  split; [split_and!; [exact insertion_argsort_spec|exact Hlen|exact Hext
                      |exact Hsort|exact Hstops]|].
  exact (pivot_first insertion_argsort scenario1 (1,1) _ _
           insertion_argsort_spec Hlen Hext Hsort Hstops).
Defined.

(** ** The sweep of an array that needs no backtracking *)

Lemma left_at_turn points i :
  4 ≤ i → left_at points (i - 1) →
  ∃ c t, points !! Z.to_nat i = Some c
    ∧ turn_at points (i - 1) i = Ok t ∧ t < 0.
Proof.
  intros Hi (p1 & p2 & p3 & H1 & H2 & H3 & Hneg).
  replace (i - 1 + 1) with i in H3 by lia.
  exists p3, (ccw p1 p2 p3). split_and!; [done| |done].
  unfold turn_at.
  rewrite (getitem_lookup points (i - 1) p1), (getitem_lookup points (i - 1 - 1) p2),
    (getitem_lookup points i p3) by (done || lia).
  done.
Qed.

Lemma sweep_step_no_pop points i :
  4 ≤ i → left_at points (i - 1) →
  sweep_step (points, i - 1) i = Ok (points, i).
Proof.
  intros Hi Hleft.
  destruct (left_at_turn _ _ Hi Hleft) as (c & t & Hc & Ht & Hneg).
  unfold sweep_step. rewrite backtrack_unfold, Ht. cbn.
  destruct (Z.leb_spec 0 t); [lia|]. cbn.
  replace (i - 1 + 1) with i by lia.
  unfold swap. rewrite (getitem_lookup points i c) by (done || lia). cbn.
  pose proof (lookup_lt_Some _ _ _ Hc).
  rewrite setitem_nonneg by lia. cbn.
  rewrite setitem_nonneg by (rewrite length_insert; lia).
  rewrite (list_insert_id points) by done.
  by rewrite (list_insert_id points) by done.
Qed.

Lemma sweep_rounds_no_pop points (n : nat) : ∀ i,
  4 ≤ i →
  (∀ k, i - 1 ≤ k < i - 1 + Z.of_nat n → left_at points k) →
  for_each sweep_step (seqZ i (Z.of_nat n)) (points, i - 1)
    = Ok (points, i - 1 + Z.of_nat n).
Proof.
  induction n as [|n IH]; intros i Hi Hleft.
  { rewrite seqZ_nil by lia. by rewrite Z.add_0_r. }
  rewrite seqZ_cons by lia.
  replace (Z.pred (Z.of_nat (S n))) with (Z.of_nat n) by lia.
  cbn [for_each]. rewrite sweep_step_no_pop by (try apply Hleft; lia). cbn.
  replace i with (Z.succ i - 1) at 2 by lia.
  rewrite IH; [f_equal; f_equal; lia|lia|].
  intros k Hk. apply Hleft. lia.
Qed.

Lemma slice_from_1 {A} (a : list A) hi :
  1 ≤ hi → Z.of_nat (length a) ≤ hi → slice a (Some 1) (Some hi) = drop 1 a.
Proof.
  intros H1 Hhi.
  assert (slice a (Some 1) (Some hi)
          = slice a (Some (Z.of_nat 1)) (Some (Z.of_nat (Z.to_nat hi))))
    as -> by (by rewrite Z2Nat.id by lia).
  rewrite slice_between. apply take_ge. rewrite length_drop. lia.
Qed.

Lemma no_backtracking points :
  (3 ≤ length points)%nat →
  (∀ k, 3 ≤ k → k + 1 < Z.of_nat (length points) → left_at points k) →
  find_hull_vertices points = Ok (drop 1 points).
Proof.
  intros Hlen Hleft. unfold find_hull_vertices, range.
  set (N := Z.of_nat (length points)) in *.
  destruct (decide (N - 4 ≤ 0)) as [Hle|Hgt].
  - rewrite seqZ_nil by done. cbn. rewrite slice_from_1; [done|lia..].
  - replace (N - 4) with (Z.of_nat (Z.to_nat (N - 4))) by lia.
    change 3 with (4 - 1) at 1. rewrite sweep_rounds_no_pop; [|lia|].
    + cbn. rewrite slice_from_1; [done|lia..].
    + intros k Hk. apply Hleft; lia.
Qed.

(** ** The hull of a hull *)

Lemma sorted_seq (keys : list Float64.t) :
  (∀ i j a b, (i < j)%nat → keys !! i = Some a → keys !! j = Some b →
     Float64.le a b = true) →
  Sorted (key_le keys) (seq 0 (length keys)).
Proof.
  intros Hle.
  assert (∀ n start, (start + n ≤ length keys)%nat →
            Sorted (key_le keys) (seq start n)) as Hgen; [|by apply Hgen].
  induction n as [|n IH]; intros start Hn; [constructor|].
  simpl. constructor; [apply IH; lia|].
  destruct n as [|n]; simpl; constructor.
  destruct (lookup_lt_is_Some_2 keys start) as [a Ha]; [lia|].
  destruct (lookup_lt_is_Some_2 keys (S start)) as [b Hb]; [lia|].
  unfold key_le. rewrite Ha, Hb. eapply Hle; [|done..]. lia.
Qed.

(** A sequence in ascending order without ties is left as it is. *)
Lemma sort_sorted argsort (points : list point) primary :
  argsort_spec argsort →
  (∀ i j p q, (i < j)%nat → points !! i = Some p → points !! j = Some q →
     slope_le p q) →
  tie_free (slope <$> points) = true →
  sort_for_graham_scan argsort points primary
    = Ok (slice points (Some (-1)) None ++ primary :: points).
Proof.
  intros Hspec Hle Hfree. rewrite sort_for_graham_scan_spec by done.
  destruct (Hspec (slope <$> points)) as [Hperm Hsorted].
  assert (argsort (slope <$> points) = seq 0 (length (slope <$> points))) as ->.
  { apply (argsort_determined (slope <$> points)); try done.
    apply sorted_seq. intros i j a b Hlt. rewrite !list_lookup_fmap.
    destruct (points !! i) as [p|] eqn:Hp; [|done].
    destruct (points !! j) as [q|] eqn:Hq; [|done].
    intros [= <-] [= <-]. by eapply Hle. }
  by rewrite length_fmap, fmap_lookup_total_seq.
Qed.

Lemma last_row_length {A} (a : list A) :
  (1 ≤ length a)%nat → length (slice a (Some (-1)) None) = 1%nat.
Proof. intros. rewrite slice_last, length_drop. lia. Qed.

(** C10.  Claim: applying the hull computation to the point sequence
    returned as a hull yields that same hull again, same points, same
    starting point, same order.  The code departs from it.  On
    [[1,5],[5,1],[3,1],[5,3],[3,3],[4,2]] the primary point is [1,5]; the
    first backtracking of [find_hull_vertices] runs past it (the sweep
    does not stop at a cursor M ≥ 1) and, whatever [np.argsort] does (the
    five keys differ), the sequence returned is [5,3],[3,3]: it has lost
    the primary point and is not the hull of the input.  Applied to it,
    the computation returns [3,3],[5,3], another sequence. *)
Theorem hull_of_hull_differs argsort :
  argsort_spec argsort →
  extract_primary [(1,5); (5,1); (3,1); (5,3); (3,3); (4,2)]
    = Ok ((1,5), [(5,1); (3,1); (5,3); (3,3); (4,2)])
  ∧ (∀ sorted_points,
       sort_for_graham_scan argsort [(5,1); (3,1); (5,3); (3,3); (4,2)] (1,5)
         = Ok sorted_points →
       sentinel_stops sorted_points = false)
  ∧ graham_scan argsort [(1,5); (5,1); (3,1); (5,3); (3,3); (4,2)]
    = Ok [(5,3); (3,3)]
  ∧ graham_scan argsort [(5,3); (3,3)] = Ok [(3,3); (5,3)].
Proof.
  intros Hspec.
  assert (tie_free (slope <$> [(5,1); (3,1); (5,3); (3,3); (4,2)]) = true)
    as Hfree by (vm_compute; reflexivity).
  split_and!.
  - vm_compute; reflexivity.
  - intros sorted_points. unfold sort_for_graham_scan.
    rewrite (argsort_tie_free argsort _ Hspec Hfree). clear Hfree.
    intros Hsort. vm_compute in Hsort. injection Hsort as <-.
    vm_compute; reflexivity.
  - rewrite graham_scan_tie_free; [|done|]; vm_compute; reflexivity.
  - rewrite graham_scan_tie_free; [|done|]; vm_compute; reflexivity.
Qed.

Lemma hull_of_hull_differs_witness :
  argsort_spec insertion_argsort
  ∧ graham_scan insertion_argsort [(1,5); (5,1); (3,1); (5,3); (3,3); (4,2)]
    = Ok [(5,3); (3,3)]
  ∧ graham_scan insertion_argsort [(5,3); (3,3)] = Ok [(3,3); (5,3)].
Proof.
  split; [exact insertion_argsort_spec|].
  exact (proj2 (proj2
    (hull_of_hull_differs insertion_argsort insertion_argsort_spec))).
Defined.

(** X25.  The hull computation gives the same hull again on every input
    on which every backtracking of the sweep stops at a cursor M ≥ 1 and
    whose hull is such that [extract_primary] picks its first point and
    no two of its other points have keys that tie: applied to the
    sequence returned as a hull, [graham_scan] returns that sequence,
    same points, same starting point, same order. *)
Theorem hull_idempotent argsort points primary remaining_points sorted_points hd tl :
  argsort_spec argsort →
  extract_primary points = Ok (primary, remaining_points) →
  sort_for_graham_scan argsort remaining_points primary = Ok sorted_points →
  sentinel_stops sorted_points = true →
  graham_scan argsort points = Ok (hd :: tl) →
  extract_primary (hd :: tl) = Ok (hd, tl) →
  tie_free (slope <$> tl) = true →
  graham_scan argsort (hd :: tl) = Ok (hd :: tl).
Proof.
  intros Hspec Hext Hsort Hstops Hhull Hext2 Hfree.
  rewrite (graham_scan_unfold _ _ _ _ _ Hext Hsort) in Hhull.
  destruct (sorted_points_spec argsort Hspec remaining_points) as (_ & _ & Hsorted).
  rewrite sort_for_graham_scan_spec in Hsort by done.
  injection Hsort as <-.
  set (l := (remaining_points !!!.) <$> _) in *.
  pose proof (sorted_array_inv l primary Hsorted) as Hinv.
  destruct (find_hull_vertices_guarded _ Hinv Hstops)
    as (arr & M & i & Hfind & [Hcur Hleft Hsrt] & Hlen & _).
  rewrite Hfind in Hhull. injection Hhull as Hslice.
  assert (slice arr (Some 1) (Some (M + 1)) = take (Z.to_nat M) (drop 1 arr)) as Hsl.
  { assert (slice arr (Some 1) (Some (M + 1))
            = slice arr (Some (Z.of_nat 1)) (Some (Z.of_nat (Z.to_nat (M + 1)))))
      as -> by (by rewrite Z2Nat.id by lia).
    rewrite slice_between. f_equal. lia. }
  rewrite Hsl in Hslice.
  (* the rows of the hull, the first apart, are rows 2 to M of the array *)
  assert (∀ j x, tl !! j = Some x →
            arr !! (2 + j)%nat = Some x ∧ Z.of_nat j + 2 ≤ M) as Htl.
  { intros j x Hx.
    assert ((hd :: tl) !! S j = Some x) as Hx' by done.
    rewrite <- Hslice in Hx'. apply lookup_take_Some in Hx' as [Hx' ?].
    rewrite lookup_drop in Hx'. split; [done|lia]. }
  assert (1 ≤ length tl)%nat as Hne.
  { assert (length (hd :: tl) = length (take (Z.to_nat M) (drop 1 arr))) as Hl
      by by rewrite Hslice.
    rewrite length_take, length_drop, Hlen in Hl. simpl in Hl.
    rewrite length_app in Hl. simpl in Hl.
    destruct (decide (length l = 0)%nat) as [H0|H0].
    - rewrite slice_last, length_drop in Hl. lia.
    - rewrite last_row_length in Hl by lia. lia. }
  (* they are in ascending order, and the sort leaves them as they are *)
  rewrite (graham_scan_unfold _ _ hd tl
             (slice tl (Some (-1)) None ++ hd :: tl) Hext2).
  2:{ apply sort_sorted; [done| |done].
      intros j1 j2 p q Hlt [Hp ?]%Htl [Hq ?]%Htl.
      apply (Hsrt (Z.of_nat j1 + 2) (Z.of_nat j2 + 2)); unfold live; try lia.
      - by replace (Z.to_nat (Z.of_nat j1 + 2)) with (2 + j1)%nat by lia.
      - by replace (Z.to_nat (Z.of_nat j2 + 2)) with (2 + j2)%nat by lia. }
  pose proof (last_row_length tl Hne) as Hlast.
  (* the second sweep reads the same rows, and every turn is a left turn *)
  assert (∀ k x, 2 ≤ k → k < Z.of_nat (length tl) + 2 →
            arr !! Z.to_nat k = Some x →
            (slice tl (Some (-1)) None ++ hd :: tl) !! Z.to_nat k = Some x) as Hrow.
  { intros k x Hk2 Hk Hx. rewrite lookup_app_r; rewrite Hlast; [|lia].
    rewrite lookup_cons_ne_0 by lia.
    destruct (lookup_lt_is_Some_2 tl (pred (Z.to_nat k - 1))) as [y Hy]; [lia|].
    rewrite Hy. apply Htl in Hy as [Hy _].
    replace (2 + pred (Z.to_nat k - 1))%nat with (Z.to_nat k) in Hy by lia.
    congruence. }
  rewrite no_backtracking.
  - f_equal. destruct (slice tl (Some (-1)) None) as [|z [|]]; simpl in *; done.
  - rewrite length_app, Hlast. simpl. lia.
  - rewrite length_app, Hlast. simpl length. intros k Hk3 Hk.
    destruct (lookup_lt_is_Some_2 tl (Z.to_nat (k - 1))) as [y Hy]; [lia|].
    apply Htl in Hy as [_ HkM].
    destruct (Hleft k) as (p1 & p2 & p3 & H1 & H2 & H3 & Hneg); [lia|].
    exists p1, p2, p3. split_and!; [apply Hrow; (done || lia)..|done].
Qed.

Lemma hull_idempotent_witness :
  (argsort_spec insertion_argsort
   ∧ extract_primary scenario1
     = Ok ((1,1), [(2,5); (3,2); (4,4); (5,2); (6,3); (2,3); (3,4); (5,3)])
   ∧ sort_for_graham_scan insertion_argsort
       [(2,5); (3,2); (4,4); (5,2); (6,3); (2,3); (3,4); (5,3)] (1,1)
     = Ok [(2,5); (1,1); (5,2); (6,3); (5,3); (3,2); (4,4); (3,4); (2,3); (2,5)]
   ∧ sentinel_stops
       [(2,5); (1,1); (5,2); (6,3); (5,3); (3,2); (4,4); (3,4); (2,3); (2,5)] = true
   ∧ graham_scan insertion_argsort scenario1
     = Ok [(1,1); (5,2); (6,3); (4,4); (2,5)]
   ∧ extract_primary [(1,1); (5,2); (6,3); (4,4); (2,5)]
     = Ok ((1,1), [(5,2); (6,3); (4,4); (2,5)])
   ∧ tie_free (slope <$> [(5,2); (6,3); (4,4); (2,5)]) = true)
  ∧ graham_scan insertion_argsort [(1,1); (5,2); (6,3); (4,4); (2,5)]
    = Ok [(1,1); (5,2); (6,3); (4,4); (2,5)].
Proof.
  assert (extract_primary scenario1
          = Ok ((1,1), [(2,5); (3,2); (4,4); (5,2); (6,3); (2,3); (3,4); (5,3)]))
    as Hext by (vm_compute; reflexivity).
  assert (sort_for_graham_scan insertion_argsort
            [(2,5); (3,2); (4,4); (5,2); (6,3); (2,3); (3,4); (5,3)] (1,1)
          = Ok [(2,5); (1,1); (5,2); (6,3); (5,3); (3,2); (4,4); (3,4); (2,3); (2,5)])
    as Hsort by (vm_compute; reflexivity).
  assert (sentinel_stops
            [(2,5); (1,1); (5,2); (6,3); (5,3); (3,2); (4,4); (3,4); (2,3); (2,5)]
          = true)
    as Hstops by (vm_compute; reflexivity).
  assert (graham_scan insertion_argsort scenario1
          = Ok [(1,1); (5,2); (6,3); (4,4); (2,5)])
    as Hhull by (vm_compute; reflexivity).
  assert (extract_primary [(1,1); (5,2); (6,3); (4,4); (2,5)]
          = Ok ((1,1), [(5,2); (6,3); (4,4); (2,5)]))
    as Hext2 by (vm_compute; reflexivity).
  assert (tie_free (slope <$> [(5,2); (6,3); (4,4); (2,5)]) = true)
    as Hfree by (vm_compute; reflexivity).
  split; [split_and!; [exact insertion_argsort_spec|assumption..]|].
  exact (hull_idempotent insertion_argsort scenario1 (1,1) _ _ (1,1) _
           insertion_argsort_spec Hext Hsort Hstops Hhull Hext2 Hfree).
Defined.

(** ** Turns of the returned hull *)

(** On the hull of scenario 1 the test, applied as the sweep applies it,
    reports a counter-clockwise turn on every triple. *)
Example scenario1_turns :
  turn_in_sweep <$> cyclic_triples [(1,1); (5,2); (6,3); (4,4); (2,5)]
  = [counter_clockwise; counter_clockwise; counter_clockwise;
     counter_clockwise; counter_clockwise].
Proof. vm_compute. reflexivity. Qed.

(** C7.  Claim: no consecutive triple of the returned hull, the
    wrap-around from the last point to the first and second included, is
    classified as a right-turn by the orientation test.  The code departs
    from it.  On [[1,1],[1,2],[2,5],[2,6]] the keys
    y/x are 2, 2.5 and 3, so the points stay in that order, although seen
    from the pivot [1,1] the point [1,2] comes last; the first three rows
    after the sentinel are accepted without a test and the only candidate
    passes its test, so the hull is the input.  Walking it, the turn at
    [1,2] is clockwise: the orientation test, applied as the sweep applies
    it, reports a clockwise turn on the first triple and on the last
    wrap-around; applied to the points in walking order it reports one on
    the two others. *)
Theorem hull_with_clockwise_turn :
  graham_scan insertion_argsort four_points = Ok [(1,1); (1,2); (2,5); (2,6)]
  ∧ turn_in_sweep <$> cyclic_triples [(1,1); (1,2); (2,5); (2,6)]
    = [clockwise; counter_clockwise; counter_clockwise; clockwise]
  ∧ turn_in_order <$> cyclic_triples [(1,1); (1,2); (2,5); (2,6)]
    = [counter_clockwise; clockwise; clockwise; counter_clockwise].
Proof. split_and!; vm_compute; reflexivity. Qed.

(** * Further properties of the program *)

(** ** [swap] *)

Ltac lookup_cases :=
  repeat case_decide; destruct_and?; simplify_eq;
  try done; try congruence; try lia.

Lemma position_Some n k i :
  position n k = Some i →
  (i < n)%nat ∧ - Z.of_nat n ≤ k < Z.of_nat n
  ∧ Z.of_nat i = (if k <? 0 then k + Z.of_nat n else k).
Proof.
  unfold position. destruct (Z.ltb_spec k 0);
    repeat case_match; intros; simplify_eq;
    repeat match goal with
      | H : _ && _ = true |- _ => apply andb_true_iff in H as [? ?]
      | H : (_ <=? _) = true |- _ => apply Z.leb_le in H
      | H : (_ <? _) = true |- _ => apply Z.ltb_lt in H
      end; lia.
Qed.

Lemma position_None n k :
  position n k = None → ¬ (- Z.of_nat n ≤ k < Z.of_nat n).
Proof.
  unfold position. destruct (Z.ltb_spec k 0);
    repeat case_match; intros; simplify_eq;
    repeat match goal with
      | H : _ && _ = false |- _ => apply andb_false_iff in H as [H|H]
      | H : (_ <=? _) = false |- _ => apply Z.leb_gt in H
      | H : (_ <? _) = false |- _ => apply Z.ltb_ge in H
      end; lia.
Qed.

Lemma getitem_Ok_position {A} (a : list A) k x :
  getitem a k = Ok x ↔ ∃ i, position (length a) k = Some i ∧ a !! i = Some x.
Proof.
  unfold getitem. destruct (position (length a) k) as [i|]; simpl.
  - destruct (a !! i) as [y|] eqn:Hy; split; try done.
    + intros [= <-]. eauto.
    + intros (? & [= <-] & ?). congruence.
    + intros (? & [= <-] & ?). congruence.
  - split; [done|]. by intros (? & ? & ?).
Qed.

Lemma getitem_in_range {A} (a : list A) k :
  - Z.of_nat (length a) ≤ k < Z.of_nat (length a) → ∃ x, getitem a k = Ok x.
Proof.
  intros Hk. destruct (position (length a) k) as [i|] eqn:Hi.
  - destruct (position_Some _ _ _ Hi) as (Hlt & _).
    destruct (lookup_lt_is_Some_2 a i Hlt) as [x Hx].
    exists x. apply getitem_Ok_position. eauto.
  - by apply position_None in Hi.
Qed.

Lemma getitem_Raise {A} (a : list A) k e :
  getitem a k = Raise e →
  e = IndexError ∧ ¬ (- Z.of_nat (length a) ≤ k < Z.of_nat (length a)).
Proof.
  intros He. split.
  - unfold getitem in He. by case_match; simplify_eq.
  - intros [x Hx]%getitem_in_range. congruence.
Qed.

Lemma exchange_Permutation {A} (a : list A) i j x y :
  a !! i = Some x → a !! j = Some y →
  <[j:=x]> (<[i:=y]> a) ≡ₚ a.
Proof.
  intros Hx Hy. pose proof (lookup_lt_Some _ _ _ Hx). pose proof (lookup_lt_Some _ _ _ Hy).
  apply Permutation_inj. split; [by rewrite !length_insert|].
  exists (λ k, if decide (k = i) then j else if decide (k = j) then i else k).
  split.
  - intros k1 k2. repeat case_decide; lia.
  - intros k. rewrite !list_lookup_insert, !length_insert.
    lookup_cases.
Qed.

Lemma swap_Ok points li ri points' :
  swap points li ri = Ok points' ↔
  ∃ i j x y,
    position (length points) li = Some i
    ∧ position (length points) ri = Some j
    ∧ points !! i = Some x ∧ points !! j = Some y
    ∧ points' = <[j:=x]> (<[i:=y]> points).
Proof.
  unfold swap. split.
  - destruct (getitem points li) as [x|] eqn:Hx; [|done].
    destruct (getitem points ri) as [y|] eqn:Hy; [|done]. cbn.
    apply getitem_Ok_position in Hx as (i & Hi & Hx).
    apply getitem_Ok_position in Hy as (j & Hj & Hy).
    unfold setitem. rewrite Hi. cbn. rewrite length_insert, Hj.
    intros [= <-]. by exists i, j, x, y.
  - intros (i & j & x & y & Hi & Hj & Hx & Hy & ->).
    assert (getitem points li = Ok x) as -> by (apply getitem_Ok_position; eauto).
    assert (getitem points ri = Ok y) as -> by (apply getitem_Ok_position; eauto).
    cbn. unfold setitem. rewrite Hi. cbn. by rewrite length_insert, Hj.
Qed.

(** X1.  When [swap(a, li, ri)] returns, the array has the same rows
    (a permutation, of the same length): row [li] now holds what row [ri]
    held and row [ri] what row [li] held, negative indices counting
    from the end. *)
Theorem swap_exchanges points li ri points' :
  swap points li ri = Ok points' →
  getitem points' li = getitem points ri
  ∧ getitem points' ri = getitem points li
  ∧ points' ≡ₚ points
  ∧ length points' = length points.
Proof.
  intros (i & j & x & y & Hi & Hj & Hx & Hy & ->)%swap_Ok.
  pose proof (lookup_lt_Some _ _ _ Hx). pose proof (lookup_lt_Some _ _ _ Hy).
  assert (getitem points li = Ok x) as -> by (apply getitem_Ok_position; eauto).
  assert (getitem points ri = Ok y) as -> by (apply getitem_Ok_position; eauto).
  split_and!.
  - apply getitem_Ok_position. exists i. rewrite !length_insert. split; [done|].
    rewrite !list_lookup_insert, !length_insert.
    lookup_cases.
  - apply getitem_Ok_position. exists j. rewrite !length_insert. split; [done|].
    rewrite list_lookup_insert_eq; [done|]. by rewrite length_insert.
  - by apply exchange_Permutation.
  - by rewrite !length_insert.
Qed.

Lemma swap_exchanges_witness :
  swap [(1,1); (2,2); (3,3)] (-1) 0 = Ok [(3,3); (2,2); (1,1)]
  ∧ getitem [(3,3); (2,2); (1,1)] (-1) = getitem [(1,1); (2,2); (3,3)] 0
  ∧ getitem [(3,3); (2,2); (1,1)] 0 = getitem [(1,1); (2,2); (3,3)] (-1)
  ∧ [(3,3); (2,2); (1,1)] ≡ₚ [(1,1); (2,2); (3,3)]
  ∧ length [(3,3); (2,2); (1,1)] = length [(1,1); (2,2); (3,3)].
Proof.
  split; [reflexivity|].
  exact (swap_exchanges [(1,1); (2,2); (3,3)] (-1) 0 _ eq_refl).
Defined.

(** X2.  Swapping the same two rows twice gives the array back. *)
Theorem swap_twice points li ri points' :
  swap points li ri = Ok points' → swap points' li ri = Ok points.
Proof.
  intros (i & j & x & y & Hi & Hj & Hx & Hy & ->)%swap_Ok.
  pose proof (lookup_lt_Some _ _ _ Hx). pose proof (lookup_lt_Some _ _ _ Hy).
  apply swap_Ok. exists i, j.
  exists (if decide (i = j) then x else y), x.
  rewrite !length_insert. split_and!; [done..| | |].
  - rewrite !list_lookup_insert, !length_insert.
    lookup_cases.
  - rewrite list_lookup_insert_eq; [done|]. by rewrite length_insert.
  - apply list_eq. intros k.
    rewrite !list_lookup_insert, !length_insert.
    lookup_cases.
Qed.

Lemma swap_twice_witness :
  swap [(1,1); (2,2); (3,3)] (-1) 0 = Ok [(3,3); (2,2); (1,1)]
  ∧ swap [(3,3); (2,2); (1,1)] (-1) 0 = Ok [(1,1); (2,2); (3,3)].
Proof.
  split; [reflexivity|].
  exact (swap_twice [(1,1); (2,2); (3,3)] (-1) 0 _ eq_refl).
Defined.

(** X3.  [swap] returns exactly when both indices lie in [-N, N), N the
    number of rows; otherwise it raises IndexError, and it raises nothing
    else. *)
Theorem swap_raises points li ri :
  let N := Z.of_nat (length points) in
  ((- N ≤ li < N ∧ - N ≤ ri < N) → ∃ points', swap points li ri = Ok points')
  ∧ (¬ (- N ≤ li < N ∧ - N ≤ ri < N) → swap points li ri = Raise IndexError).
Proof.
  intros N. split.
  - intros [[x Hx]%getitem_in_range [y Hy]%getitem_in_range].
    apply getitem_Ok_position in Hx as (i & Hi & Hx).
    apply getitem_Ok_position in Hy as (j & Hj & Hy).
    eexists. apply swap_Ok. by exists i, j, x, y.
  - intros Hout. unfold swap.
    destruct (getitem points li) as [x|] eqn:Hx.
    + destruct (getitem points ri) as [y|] eqn:Hy.
      * apply getitem_Ok_range in Hx, Hy. by destruct Hout.
      * cbn. by apply getitem_Raise in Hy as [-> _].
    + cbn. by apply getitem_Raise in Hx as [-> _].
Qed.

Lemma swap_raises_witness :
  (¬ (- 3 ≤ 3 < 3 ∧ - 3 ≤ 0 < 3))
  ∧ swap [(1,1); (2,2); (3,3)] 3 0 = Raise IndexError.
Proof.
  assert (¬ (- 3 ≤ 3 < 3 ∧ - 3 ≤ 0 < 3)) as H by lia.
  split; [exact H|].
  exact (proj2 (swap_raises [(1,1); (2,2); (3,3)] 3 0) H).
Defined.

(** ** [ccw] on coordinates that do not overflow *)

Lemma segment_arith dx1 dy1 dx2 dy2 :
  dx1 * dy2 = dy1 * dx2 →
  (0 ≤ dx1 * dx2 ∧ 0 ≤ dy1 * dy2
   ∧ dx2 * dx2 + dy2 * dy2 ≤ dx1 * dx1 + dy1 * dy1)
  ↔ (between 0 dx2 dx1 ∧ between 0 dy2 dy1).
Proof.
  intros Hcross. unfold between. split.
  - intros (Hx & Hy & Hlen).
    assert (dx1 * dx1 * (dx2 * dx2 + dy2 * dy2)
            = dx2 * dx2 * (dx1 * dx1 + dy1 * dy1)) as Ex.
    { transitivity (dx1 * dx1 * (dx2 * dx2) + (dx1 * dy2) * (dx1 * dy2)); [ring|].
      rewrite Hcross. ring. }
    assert (dy1 * dy1 * (dx2 * dx2 + dy2 * dy2)
            = dy2 * dy2 * (dx1 * dx1 + dy1 * dy1)) as Ey.
    { transitivity ((dy1 * dx2) * (dy1 * dx2) + dy1 * dy1 * (dy2 * dy2)); [ring|].
      rewrite <- Hcross. ring. }
    assert (dx2 * dx2 ≤ dx1 * dx1) as Hsx.
    { destruct (decide (dx1 * dx1 + dy1 * dy1 = 0)) as [H0|H0]; [nia|].
      apply Z.nlt_ge. intros Hlt.
      assert (dx1 * dx1 * (dx1 * dx1 + dy1 * dy1)
              < dx2 * dx2 * (dx1 * dx1 + dy1 * dy1)) by (apply Z.mul_lt_mono_pos_r; nia).
      assert (dx1 * dx1 * (dx2 * dx2 + dy2 * dy2)
              ≤ dx1 * dx1 * (dx1 * dx1 + dy1 * dy1)) by (apply Z.mul_le_mono_nonneg_l; nia).
      lia. }
    assert (dy2 * dy2 ≤ dy1 * dy1) as Hsy.
    { destruct (decide (dx1 * dx1 + dy1 * dy1 = 0)) as [H0|H0]; [nia|].
      apply Z.nlt_ge. intros Hlt.
      assert (dy1 * dy1 * (dx1 * dx1 + dy1 * dy1)
              < dy2 * dy2 * (dx1 * dx1 + dy1 * dy1)) by (apply Z.mul_lt_mono_pos_r; nia).
      assert (dy1 * dy1 * (dx2 * dx2 + dy2 * dy2)
              ≤ dy1 * dy1 * (dx1 * dx1 + dy1 * dy1)) by (apply Z.mul_le_mono_nonneg_l; nia).
      lia. }
    split; nia.
  - intros [Hx Hy]. split_and!; nia.
Qed.

(** X4.  On coordinates that do not overflow, [ccw(p1, p2, p3)] returns 0
    exactly when p3 lies on the closed segment from p1 to p2: the three
    points are on one line and p3 is between p1 and p2 in both
    coordinates. *)
Theorem ccw_zero_on_segment p1 p2 p3 :
  small p1 → small p2 → small p3 →
  ccw p1 p2 p3 = collinear
  ↔ (p2.1 - p1.1) * (p3.2 - p1.2) = (p2.2 - p1.2) * (p3.1 - p1.1)
    ∧ between p1.1 p3.1 p2.1 ∧ between p1.2 p3.2 p2.2.
Proof.
  intros H1 H2 H3. rewrite ccw_orientation_test by done.
  unfold orientation_test, clockwise, counter_clockwise, collinear.
  rewrite Z.gtb_ltb, !opposite_signs_mul.
  set (dx1 := p2.1 - p1.1). set (dy1 := p2.2 - p1.2).
  set (dx2 := p3.1 - p1.1). set (dy2 := p3.2 - p1.2).
  assert (∀ a c b, between a c b ↔ between 0 (c - a) (b - a)) as Hb.
  { unfold between. lia. }
  rewrite (Hb p1.1), (Hb p1.2). fold dx1 dy1 dx2 dy2.
  destruct (Z.ltb_spec (dy1 * dx2) (dx1 * dy2)); [split; [done|lia]|].
  destruct (Z.ltb_spec (dx1 * dy2) (dy1 * dx2)); [split; [done|lia]|].
  assert (dx1 * dy2 = dy1 * dx2) as Hcross by lia.
  rewrite <- (segment_arith _ _ _ _ Hcross).
  destruct (Z.ltb_spec (dx1 * dx2) 0); simpl; [split; [done|lia]|].
  destruct (Z.ltb_spec (dy1 * dy2) 0); simpl; [split; [done|lia]|].
  destruct (Z.ltb_spec (dx1 * dx1 + dy1 * dy1) (dx2 * dx2 + dy2 * dy2));
    split; try done; lia.
Qed.

Lemma ccw_zero_on_segment_witness :
  (small (0,0) ∧ small (4,2) ∧ small (2,1))
  ∧ (ccw (0,0) (4,2) (2,1) = collinear
     ↔ (4 - 0) * (1 - 0) = (2 - 0) * (2 - 0)
       ∧ between 0 2 4 ∧ between 0 1 2).
Proof.
  assert (small (0,0) ∧ small (4,2) ∧ small (2,1)) as H.
  { unfold small; simpl; lia. }
  split; [exact H|]. destruct H as (H1 & H2 & H3).
  exact (ccw_zero_on_segment (0,0) (4,2) (2,1) H1 H2 H3).
Defined.

(** X5.  On coordinates that do not overflow, [ccw] does not depend on
    where the three points are, only on how they lie to each other:
    moving them all by the same vector leaves the result unchanged. *)
Theorem ccw_translate v p1 p2 p3 :
  small p1 → small p2 → small p3 →
  small (translate v p1) → small (translate v p2) → small (translate v p3) →
  ccw (translate v p1) (translate v p2) (translate v p3) = ccw p1 p2 p3.
Proof.
  intros. rewrite !ccw_orientation_test by done.
  unfold orientation_test, translate. simpl.
  by replace (p2.1 + v.1 - (p1.1 + v.1)) with (p2.1 - p1.1) by lia;
    replace (p2.2 + v.2 - (p1.2 + v.2)) with (p2.2 - p1.2) by lia;
    replace (p3.1 + v.1 - (p1.1 + v.1)) with (p3.1 - p1.1) by lia;
    replace (p3.2 + v.2 - (p1.2 + v.2)) with (p3.2 - p1.2) by lia.
Qed.

Lemma ccw_translate_witness :
  (small (1,1) ∧ small (5,2) ∧ small (6,3)
   ∧ small (translate (10,-7) (1,1)) ∧ small (translate (10,-7) (5,2))
   ∧ small (translate (10,-7) (6,3)))
  ∧ ccw (translate (10,-7) (1,1)) (translate (10,-7) (5,2))
        (translate (10,-7) (6,3))
    = ccw (1,1) (5,2) (6,3).
Proof.
  assert (small (1,1) ∧ small (5,2) ∧ small (6,3)
          ∧ small (translate (10,-7) (1,1)) ∧ small (translate (10,-7) (5,2))
          ∧ small (translate (10,-7) (6,3))) as H.
  { unfold small, translate; simpl; lia. }
  split; [exact H|]. destruct H as (H1 & H2 & H3 & H4 & H5 & H6).
  exact (ccw_translate (10,-7) (1,1) (5,2) (6,3) H1 H2 H3 H4 H5 H6).
Defined.

(** X6.  On coordinates that do not overflow, when the three points are
    not on one line, exchanging the second and the third point turns a
    clockwise answer into a counter-clockwise one and back. *)
Theorem ccw_exchange p1 p2 p3 :
  small p1 → small p2 → small p3 →
  (p2.1 - p1.1) * (p3.2 - p1.2) ≠ (p2.2 - p1.2) * (p3.1 - p1.1) →
  ccw p1 p3 p2 = - ccw p1 p2 p3 ∧ ccw p1 p2 p3 ≠ collinear.
Proof.
  intros H1 H2 H3 Hne. rewrite !ccw_orientation_test by done.
  unfold orientation_test, clockwise, counter_clockwise, collinear.
  rewrite !Z.gtb_ltb.
  set (dx1 := p2.1 - p1.1) in *. set (dy1 := p2.2 - p1.2) in *.
  set (dx2 := p3.1 - p1.1) in *. set (dy2 := p3.2 - p1.2) in *.
  replace (dy2 * dx1) with (dx1 * dy2) by ring.
  replace (dx2 * dy1) with (dy1 * dx2) by ring.
  destruct (Z.ltb_spec (dy1 * dx2) (dx1 * dy2)),
    (Z.ltb_spec (dx1 * dy2) (dy1 * dx2)); try lia; done.
Qed.

Lemma ccw_exchange_witness :
  (small (1,1) ∧ small (5,2) ∧ small (6,3)
   ∧ (5 - 1) * (3 - 1) ≠ (2 - 1) * (6 - 1))
  ∧ ccw (1,1) (6,3) (5,2) = - ccw (1,1) (5,2) (6,3)
  ∧ ccw (1,1) (5,2) (6,3) ≠ collinear.
Proof.
  assert (small (1,1) ∧ small (5,2) ∧ small (6,3)
          ∧ (5 - 1) * (3 - 1) ≠ (2 - 1) * (6 - 1)) as H.
  { unfold small; simpl; lia. }
  split; [exact H|]. destruct H as (H1 & H2 & H3 & H4).
  exact (ccw_exchange (1,1) (5,2) (6,3) H1 H2 H3 H4).
Defined.

(** X7.  On coordinates that do not overflow, coincident points are
    handled as follows: [ccw(p, q, q)] and [ccw(p, q, p)] are 0, and
    [ccw(p, p, q)] is 1 for every [q] other than [p].  The last is the
    test the sweep makes at cursor 0 for as long as row 0 and the last
    row both hold the largest-key point. *)
Theorem ccw_coincident p q :
  small p → small q →
  ccw p q q = collinear
  ∧ ccw p q p = collinear
  ∧ (q ≠ p → ccw p p q = clockwise).
Proof.
  intros Hp Hq. rewrite !ccw_orientation_test by done.
  unfold orientation_test, clockwise, counter_clockwise, collinear.
  rewrite !Z.gtb_ltb, !opposite_signs_mul.
  set (dx := q.1 - p.1). set (dy := q.2 - p.2).
  replace (p.1 - p.1) with 0 by lia. replace (p.2 - p.2) with 0 by lia.
  split_and!.
  - repeat match goal with
      | |- context [?a <? ?b] => destruct (Z.ltb_spec a b); simpl
      end; try done; nia.
  - repeat match goal with
      | |- context [?a <? ?b] => destruct (Z.ltb_spec a b); simpl
      end; try done; nia.
  - intros Hne.
    assert (¬ (dx = 0 ∧ dy = 0)) as Hd.
    { intros [Hx Hy]. destruct Hne. destruct p, q. simpl in *. f_equal; lia. }
    repeat match goal with
      | |- context [?a <? ?b] => destruct (Z.ltb_spec a b); simpl
      end; try done; nia.
Qed.

Lemma ccw_coincident_witness :
  (small (2,5) ∧ small (4,3))
  ∧ ccw (2,5) (4,3) (4,3) = collinear
  ∧ ccw (2,5) (4,3) (2,5) = collinear
  ∧ ((4,3) ≠ (2,5) → ccw (2,5) (2,5) (4,3) = clockwise).
Proof.
  assert (small (2,5) ∧ small (4,3)) as H by (unfold small; simpl; lia).
  split; [exact H|]. destruct H as (H1 & H2).
  exact (ccw_coincident (2,5) (4,3) H1 H2).
Defined.

(** ** [extract_primary] *)

Lemma argmin_scan_spec l : ∀ best_idx best idx,
  let r := argmin_scan best_idx best idx l in
  (r = best_idx ∧ ∀ y, y ∈ l → best ≤ y)
  ∨ (∃ k m, r = (idx + k)%nat ∧ l !! k = Some m ∧ m < best
       ∧ (∀ y, y ∈ l → m ≤ y)
       ∧ (∀ k' y, (k' < k)%nat → l !! k' = Some y → m < y)).
Proof.
  induction l as [|x l IH]; intros bi b idx; simpl.
  { left. split; [done|]. intros y Hy. by apply elem_of_nil in Hy. }
  destruct (Z.ltb_spec x b).
  - right. destruct (IH idx x (S idx)) as [[-> Hall]|(k & m & -> & Hk & Hm & Hall & Hfirst)].
    + exists 0%nat, x. split_and!; [lia|done|done| |lia].
      intros y [->|Hy]%elem_of_cons; [lia|auto].
    + exists (S k), m. split_and!; [lia|done|lia| |].
      * intros y [->|Hy]%elem_of_cons; [lia|auto].
      * intros [|k'] y Hlt; simpl; [intros [= <-]; lia|].
        apply Hfirst. lia.
  - destruct (IH bi b (S idx)) as [[-> Hall]|(k & m & -> & Hk & Hm & Hall & Hfirst)].
    + left. split; [done|]. intros y [->|Hy]%elem_of_cons; [lia|auto].
    + right. exists (S k), m. split_and!; [lia|done|lia| |].
      * intros y [->|Hy]%elem_of_cons; [lia|auto].
      * intros [|k'] y Hlt; simpl; [intros [= <-]; lia|].
        apply Hfirst. lia.
Qed.

Lemma first_least_unique l r m r' m' :
  first_least l r m → first_least l r' m' → r = r' ∧ m = m'.
Proof.
  intros (Hr & Hall & Hfirst) (Hr' & Hall' & Hfirst').
  assert (m = m') as <-.
  { pose proof (Hall m' (list_elem_of_lookup_2 _ _ _ Hr')).
    pose proof (Hall' m (list_elem_of_lookup_2 _ _ _ Hr)). lia. }
  split; [|done].
  destruct (Nat.lt_trichotomy r r') as [Hlt|[->|Hlt]]; [|done|].
  - pose proof (Hfirst' _ _ Hlt Hr). lia.
  - pose proof (Hfirst _ _ Hlt Hr'). lia.
Qed.

Lemma ravel_cons p points : ravel (p :: points) = p.1 :: p.2 :: ravel points.
Proof. done. Qed.

Lemma argmin_spec points :
  match argmin points with
  | Ok k => ∃ (j : nat) m, k = Z.of_nat j ∧ first_least (ravel points) j m
  | Raise e => e = ValueError ∧ points = []
  end.
Proof.
  unfold argmin. destruct points as [|p points]; [done|].
  rewrite ravel_cons.
  destruct (argmin_scan_spec (p.2 :: ravel points) 0%nat p.1 1%nat)
    as [[-> Hall]|(k & m & -> & Hk & Hm & Hall & Hfirst)].
  - exists 0%nat, p.1. split; [done|]. split_and!; [done| |lia].
    intros y [->|Hy]%elem_of_cons; [lia|auto].
  - exists (S k), m. split; [done|]. split_and!; [done| |].
    + intros y [->|Hy]%elem_of_cons; [lia|auto].
    + intros [|k'] y Hlt; simpl; [intros [= <-]; lia|].
      apply Hfirst. lia.
Qed.

Lemma extract_primary_at points (j : nat) p :
  argmin points = Ok (Z.of_nat j) → points !! j = Some p →
  extract_primary points = Ok (p, take j points ++ drop (S j) points).
Proof.
  intros Hj Hp. unfold extract_primary. rewrite Hj. cbn.
  rewrite (getitem_lookup points (Z.of_nat j) p) by (rewrite ?Nat2Z.id; done || lia).
  cbn. replace (Z.of_nat j + 1) with (Z.of_nat (S j)) by lia.
  by rewrite slice_to, slice_from.
Qed.

(** X8.  The row [extract_primary] returns as primary is the row whose
    index is the position, in the flattened array x0, y0, x1, y1, ..., of
    the first occurrence of the least coordinate; the remaining points
    are the rows before it followed by the rows after it. *)
Theorem extract_primary_picks points primary remaining_points :
  extract_primary points = Ok (primary, remaining_points) →
  ∃ j m,
    first_least (ravel points) j m
    ∧ points !! j = Some primary
    ∧ remaining_points = take j points ++ drop (S j) points.
Proof.
  intros (j & Hj & Hp & Hrem)%extract_primary_Ok.
  pose proof (argmin_spec points) as Hspec. rewrite Hj in Hspec.
  destruct Hspec as (j' & m & Hjj & Hleast).
  assert (j' = j) as -> by lia. by exists j, m.
Qed.

Lemma extract_primary_picks_witness :
  extract_primary [(3,1); (2,2); (1,5)] = Ok ((2,2), [(3,1); (1,5)])
  ∧ ∃ j m,
      first_least (ravel [(3,1); (2,2); (1,5)]) j m
      ∧ [(3,1); (2,2); (1,5)] !! j = Some (2,2)
      ∧ [(3,1); (1,5)]
        = take j [(3,1); (2,2); (1,5)] ++ drop (S j) [(3,1); (2,2); (1,5)].
Proof.
  split; [reflexivity|].
  exact (extract_primary_picks [(3,1); (2,2); (1,5)] (2,2) [(3,1); (1,5)] eq_refl).
Defined.

(** X9.  [extract_primary] loses nothing: putting the primary point back
    at its index among the remaining points gives the input array, so
    primary and remaining points together are the input points and there
    is one remaining point less than input points. *)
Theorem extract_primary_reinsert points primary remaining_points :
  extract_primary points = Ok (primary, remaining_points) →
  ∃ j : nat,
    take j remaining_points ++ primary :: drop j remaining_points = points
    ∧ primary :: remaining_points ≡ₚ points
    ∧ S (length remaining_points) = length points.
Proof.
  intros (j & _ & Hp & ->)%extract_primary_Ok.
  pose proof (lookup_lt_Some _ _ _ Hp) as Hlt.
  assert (length (take j points) = j) as Hlen by (rewrite length_take; lia).
  assert (take j points ++ primary :: drop (S j) points = points) as Heq.
  { rewrite <- (drop_S _ _ _ Hp). apply take_drop. }
  exists j. split_and!.
  - rewrite take_app_length', drop_app_length'; done.
  - rewrite <- Heq at 3. by rewrite Permutation_middle.
  - rewrite length_app, length_take, length_drop. lia.
Qed.

Lemma extract_primary_reinsert_witness :
  extract_primary [(3,1); (2,2); (1,5)] = Ok ((2,2), [(3,1); (1,5)])
  ∧ ∃ j : nat,
      take j [(3,1); (1,5)] ++ (2,2) :: drop j [(3,1); (1,5)]
        = [(3,1); (2,2); (1,5)]
      ∧ (2,2) :: [(3,1); (1,5)] ≡ₚ [(3,1); (2,2); (1,5)]
      ∧ S (length [(3,1); (1,5)]) = length [(3,1); (2,2); (1,5)].
Proof.
  split; [reflexivity|].
  exact (extract_primary_reinsert [(3,1); (2,2); (1,5)] (2,2) [(3,1); (1,5)] eq_refl).
Defined.

(** X10.  [extract_primary] raises in two cases only: on the empty array
    (ValueError, from [np.argmin]), and when the first least coordinate
    sits, in the flattened array, at a position that is not a row index
    (IndexError, from [points[min_point_idx]]). *)
Theorem extract_primary_raises points e :
  extract_primary points = Raise e
  ↔ (e = ValueError ∧ points = [])
    ∨ (e = IndexError
       ∧ ∃ j m, first_least (ravel points) j m ∧ (length points ≤ j)%nat).
Proof.
  unfold extract_primary. pose proof (argmin_spec points) as Hspec.
  destruct (argmin points) as [k|e'].
  - destruct Hspec as (j & m & -> & Hleast). cbn.
    destruct (getitem points (Z.of_nat j)) as [p|e'] eqn:Hp; cbn.
    + split; [done|]. intros [[_ ->]|(_ & j' & m' & Hleast' & Hlen)].
      * by destruct Hleast as (? & _).
      * destruct (first_least_unique _ _ _ _ _ Hleast Hleast') as [<- _].
        apply getitem_Ok_range in Hp. lia.
    + apply getitem_Raise in Hp as [-> Hout]. split.
      * intros [= <-]. right. split; [done|]. exists j, m. split; [done|]. lia.
      * intros [[_ ->]|[-> _]]; [by destruct Hleast as (? & _)|done].
  - destruct Hspec as [-> ->]. cbn. split.
    + intros [= <-]. by left.
    + intros [[-> _]|(_ & j & m & (Hj & _) & _)]; done.
Qed.

Lemma extract_primary_raises_witness :
  extract_primary [(5,5); (3,0)] = Raise IndexError
  ∧ ((IndexError = ValueError ∧ [(5,5); (3,0)] = [])
     ∨ (IndexError = IndexError
        ∧ ∃ j m, first_least (ravel [(5,5); (3,0)]) j m
                 ∧ (length [(5,5); (3,0)] ≤ j)%nat)).
Proof.
  split; [reflexivity|].
  exact (proj1 (extract_primary_raises [(5,5); (3,0)] IndexError) eq_refl).
Defined.

(** X11.  When the x of the first row is not greater than any coordinate
    of the array, [extract_primary] returns the first row as primary and
    the other rows, in their order, as remaining points. *)
Theorem extract_primary_first_row hd tl :
  (∀ c, c ∈ ravel (hd :: tl) → hd.1 ≤ c) →
  extract_primary (hd :: tl) = Ok (hd, tl).
Proof.
  intros Hmin.
  pose proof (argmin_spec (hd :: tl)) as Hspec.
  destruct (argmin (hd :: tl)) as [k|e] eqn:Hk; [|by destruct Hspec].
  destruct Hspec as (j & m & -> & Hleast).
  assert (first_least (ravel (hd :: tl)) 0 hd.1) as H0.
  { split_and!; [done|done|lia]. }
  destruct (first_least_unique _ _ _ _ _ Hleast H0) as [-> _].
  by rewrite (extract_primary_at (hd :: tl) 0 hd).
Qed.

Lemma extract_primary_first_row_witness :
  (∀ c, c ∈ ravel scenario1 → 1 ≤ c)
  ∧ extract_primary scenario1
    = Ok ((1,1), [(2,5); (3,2); (4,4); (5,2); (6,3); (2,3); (3,4); (5,3)]).
Proof.
  assert (∀ c, c ∈ ravel scenario1 → (1,1).1 ≤ c) as H.
  { intros c Hc. vm_compute in Hc.
    repeat (apply elem_of_cons in Hc as [->|Hc]; [simpl; lia|]).
    by apply elem_of_nil in Hc. }
  split; [exact H|].
  exact (extract_primary_first_row (1,1) _ H).
Defined.

(** ** [sort_for_graham_scan]: the array handed to the sweep *)

Lemma last_row_lookup {A} (a : list A) x :
  a !! pred (length a) = Some x → slice a (Some (-1)) None = [x].
Proof.
  intros Hx. pose proof (lookup_lt_Some _ _ _ Hx).
  rewrite slice_last. replace (length a - 1)%nat with (pred (length a)) by lia.
  rewrite (drop_S _ _ _ Hx), drop_ge; [done|lia].
Qed.

(** X12.  For a non-empty sequence of remaining points
    [sort_for_graham_scan] returns an array with two rows more: row 1 is
    the primary point, rows 2 and up are the remaining points in some
    order, and row 0 is a copy of the last row.  For no remaining point
    the array is the primary point alone. *)
Theorem sorted_array_shape argsort points primary :
  argsort_spec argsort →
  ∃ hull, sort_for_graham_scan argsort points primary = Ok hull
    ∧ (points = [] → hull = [primary])
    ∧ (points ≠ [] →
       length hull = (length points + 2)%nat
       ∧ hull !! 1%nat = Some primary
       ∧ hull !! 0%nat = hull !! S (length points)
       ∧ drop 2 hull ≡ₚ points).
Proof.
  intros Hspec.
  destruct (sorted_points_spec argsort Hspec points) as (_ & Hperm & _).
  eexists. split; [by apply sort_for_graham_scan_spec|].
  set (l := (points !!!.) <$> _) in *.
  assert (length l = length points) as Hlen by by rewrite Hperm.
  split.
  - intros ->. by destruct l.
  - intros Hne. assert (0 < length points)%nat.
    { destruct points; [done|simpl; lia]. }
    destruct (lookup_lt_is_Some_2 l (pred (length l))) as [x Hx]; [lia|].
    rewrite (last_row_lookup _ _ Hx). simpl. split_and!; [lia|done| |exact Hperm].
    rewrite lookup_cons_ne_0, <- Hlen by lia. done.
Qed.

Lemma sorted_array_shape_witness :
  argsort_spec insertion_argsort
  ∧ ∃ hull,
      sort_for_graham_scan insertion_argsort [(2,5); (3,2); (4,4)] (1,1) = Ok hull
      ∧ ([(2,5); (3,2); (4,4)] = [] → hull = [(1,1)])
      ∧ ([(2,5); (3,2); (4,4)] ≠ [] →
         length hull = (length [(2,5); (3,2); (4,4)] + 2)%nat
         ∧ hull !! 1%nat = Some (1,1)
         ∧ hull !! 0%nat = hull !! S (length [(2,5); (3,2); (4,4)])
         ∧ drop 2 hull ≡ₚ [(2,5); (3,2); (4,4)]).
Proof.
  split; [exact insertion_argsort_spec|].
  exact (sorted_array_shape insertion_argsort [(2,5); (3,2); (4,4)] (1,1)
           insertion_argsort_spec).
Defined.

(** ** [find_hull_vertices] and [graham_scan] on every input *)

Lemma sweep_step_Permutation points M i points' M' :
  sweep_step (points, M) i = Ok (points', M') →
  points' ≡ₚ points ∧ length points' = length points.
Proof.
  unfold sweep_step.
  destruct (backtrack _ points M i) as [M1|]; [|done]. cbn.
  destruct (swap points (M1 + 1) i) as [arr|] eqn:Hs; [|done]. cbn.
  intros [= <- <-].
  apply swap_Ok in Hs as (j1 & j2 & x & y & _ & _ & Hx & Hy & ->).
  split; [by apply exchange_Permutation|by rewrite !length_insert].
Qed.

Lemma for_each_sweep_Permutation js : ∀ points M points' M',
  for_each sweep_step js (points, M) = Ok (points', M') →
  points' ≡ₚ points ∧ length points' = length points.
Proof.
  induction js as [|i js IH]; intros points M points' M'; cbn [for_each].
  { by intros [= <- <-]. }
  destruct (sweep_step (points, M) i) as [[points1 M1]|] eqn:Hstep; [|done].
  cbn [mbind result_bind]. intros [Hp Hl]%IH.
  apply sweep_step_Permutation in Hstep as [Hp1 Hl1].
  split; [by rewrite Hp|congruence].
Qed.

Lemma find_hull_vertices_Ok points hull :
  find_hull_vertices points = Ok hull →
  ∃ points' M,
    points' ≡ₚ points ∧ length points' = length points
    ∧ hull = slice points' (Some 1) (Some (M + 1)).
Proof.
  unfold find_hull_vertices.
  destruct (for_each _ _ _) as [[points' M]|] eqn:Hrun; [|done].
  cbn. intros [= <-].
  apply for_each_sweep_Permutation in Hrun as [? ?]. by exists points', M.
Qed.

Lemma slice_sublist {A} (a : list A) start stop :
  slice a start stop `sublist_of` a.
Proof. unfold slice. etrans; [apply sublist_take|apply sublist_drop]. Qed.

Lemma slice_elem_of {A} (a : list A) start stop x :
  x ∈ slice a start stop → x ∈ a.
Proof.
  unfold slice. intros (i & Hi & _)%elem_of_take.
  rewrite lookup_drop in Hi. by eapply list_elem_of_lookup_2.
Qed.

Lemma slice_1_length {A} (a : list A) stop :
  (length (slice a (Some 1%Z) stop) ≤ length a - 1)%nat.
Proof.
  unfold slice. rewrite length_take, length_drop. cbn [bound].
  destruct (Z.ltb_spec 1 0); [lia|].
  destruct a; simpl length; lia.
Qed.

Lemma graham_scan_Ok argsort points hull :
  graham_scan argsort points = Ok hull →
  ∃ primary remaining_points sorted_points,
    extract_primary points = Ok (primary, remaining_points)
    ∧ sort_for_graham_scan argsort remaining_points primary = Ok sorted_points
    ∧ find_hull_vertices sorted_points = Ok hull.
Proof.
  unfold graham_scan.
  destruct (extract_primary points) as [[primary rem]|]; [|done]. cbn.
  destruct (sort_for_graham_scan argsort rem primary) as [w|] eqn:Hsort; [|done]. cbn.
  destruct (find_hull_vertices w) as [h|] eqn:Hfind; [|done]. cbn.
  intros [= <-]. by exists primary, rem, w.
Qed.

Lemma extract_primary_Permutation points primary remaining_points :
  extract_primary points = Ok (primary, remaining_points) →
  primary :: remaining_points ≡ₚ points.
Proof.
  intros (j & _ & Hp & ->)%extract_primary_Ok.
  rewrite Permutation_middle, <- (drop_S _ _ _ Hp). by rewrite take_drop.
Qed.

(** X13.  Whenever [graham_scan] returns, every point of the returned
    hull is a point of the input, and the hull has no more points than
    the input. *)
Theorem hull_from_input argsort points hull :
  argsort_spec argsort →
  graham_scan argsort points = Ok hull →
  hull ⊆ points ∧ (length hull ≤ length points)%nat.
Proof.
  intros Hspec (primary & rem & w & Hext & Hsort & Hfind)%graham_scan_Ok.
  apply find_hull_vertices_Ok in Hfind as (arr & M & Hperm & Hlen & ->).
  destruct (sorted_points_spec argsort Hspec rem) as (_ & Hl & _).
  rewrite sort_for_graham_scan_spec in Hsort by done. injection Hsort as <-.
  set (l := (rem !!!.) <$> _) in *.
  pose proof (extract_primary_Permutation _ _ _ Hext) as Hpts.
  split.
  - intros p Hp.
    apply slice_elem_of in Hp.
    rewrite Hperm in Hp. rewrite <- Hpts, <- Hl.
    apply elem_of_app in Hp as [Hp|Hp]; [|done].
    apply slice_elem_of in Hp. by right.
  - pose proof (slice_1_length arr (Some (M + 1))) as Hs.
    rewrite Hlen, length_app, slice_last, length_drop in Hs. simpl in Hs.
    rewrite <- Hpts. simpl. rewrite <- Hl. lia.
Qed.

Lemma hull_from_input_witness :
  (argsort_spec insertion_argsort
   ∧ graham_scan insertion_argsort six_points = Ok [(3,5); (2,5)])
  ∧ [(3,5); (2,5)] ⊆ six_points
  ∧ (length [(3,5); (2,5)] ≤ length six_points)%nat.
Proof.
  assert (graham_scan insertion_argsort six_points = Ok [(3,5); (2,5)]) as H
    by (vm_compute; reflexivity).
  split; [split; [exact insertion_argsort_spec|exact H]|].
  exact (hull_from_input insertion_argsort six_points _ insertion_argsort_spec H).
Defined.

(** ** What can be raised *)

Lemma setitem_Raise {A} (a : list A) k x e :
  setitem a k x = Raise e → e = IndexError.
Proof. unfold setitem. by case_match; intros; simplify_eq. Qed.

Lemma swap_Raise points li ri e : swap points li ri = Raise e → e = IndexError.
Proof.
  unfold swap.
  destruct (getitem points li) eqn:H1; cbn; [|intros [= <-]; by apply getitem_Raise in H1 as []].
  destruct (getitem points ri) eqn:H2; cbn; [|intros [= <-]; by apply getitem_Raise in H2 as []].
  destruct (setitem points li _) eqn:H3; cbn; [|intros [= <-]; by apply setitem_Raise in H3].
  apply setitem_Raise.
Qed.

Lemma turn_at_Raise points M i e : turn_at points M i = Raise e → e = IndexError.
Proof.
  unfold turn_at.
  destruct (getitem points M) eqn:H1; cbn; [|intros [= <-]; by apply getitem_Raise in H1 as []].
  destruct (getitem points (M - 1)) eqn:H2; cbn; [|intros [= <-]; by apply getitem_Raise in H2 as []].
  destruct (getitem points i) eqn:H3; cbn; [|intros [= <-]; by apply getitem_Raise in H3 as []].
  done.
Qed.

Lemma backtrack_Raise fuel points i e : ∀ M,
  backtrack fuel points M i = Raise e → e = IndexError.
Proof.
  induction fuel as [|fuel IH]; intros M; rewrite backtrack_unfold;
    destruct (turn_at points M i) as [t|] eqn:Ht; cbn;
    try (intros [= <-]; by apply turn_at_Raise in Ht);
    destruct (0 <=? t); try done; try (by intros [= <-]).
  apply IH.
Qed.

Lemma sweep_step_Raise st i e : sweep_step st i = Raise e → e = IndexError.
Proof.
  destruct st as [points M]. unfold sweep_step.
  destruct (backtrack _ points M i) eqn:Hb; cbn;
    [|intros [= <-]; by apply backtrack_Raise in Hb].
  destruct (swap points _ i) eqn:Hs; cbn; [done|].
  intros [= <-]. by apply swap_Raise in Hs.
Qed.

Lemma find_hull_vertices_Raise points e :
  find_hull_vertices points = Raise e → e = IndexError.
Proof.
  unfold find_hull_vertices.
  assert (∀ js st, for_each sweep_step js st = Raise e → e = IndexError) as Hrun.
  { induction js as [|i js IH]; intros st; cbn [for_each]; [done|].
    destruct (sweep_step st i) eqn:Hstep; cbn [mbind result_bind]; [apply IH|].
    intros [= <-]. by apply sweep_step_Raise in Hstep. }
  destruct (for_each _ _ _) as [[points' M]|] eqn:Hfor; cbn; [done|].
  intros [= <-]. by apply Hrun in Hfor.
Qed.

(** X14.  [graham_scan] raises ValueError on the empty input and on no
    other: whatever else goes wrong (a flattened index that is no row, a
    cursor that runs off the array) is an IndexError. *)
Theorem graham_scan_raises argsort points e :
  argsort_spec argsort →
  graham_scan argsort points = Raise e →
  (e = ValueError ∧ points = []) ∨ (e = IndexError ∧ points ≠ []).
Proof.
  intros Hspec. unfold graham_scan.
  pose proof (argmin_spec points) as Hmin.
  destruct (extract_primary points) as [[primary rem]|e'] eqn:Hext; cbn.
  - rewrite sort_for_graham_scan_spec by done. cbn.
    destruct (find_hull_vertices _) eqn:Hfind; cbn; [done|].
    intros [= <-]. apply find_hull_vertices_Raise in Hfind as ->.
    right. split; [done|]. by intros ->.
  - intros [= <-]. unfold extract_primary in Hext.
    destruct (argmin points) as [k|e''] eqn:Hk; cbn in Hext.
    + destruct Hmin as (j & m & -> & (Hj & _)).
      destruct (getitem points (Z.of_nat j)) eqn:Hg; [done|].
      cbn in Hext. injection Hext as <-.
      apply getitem_Raise in Hg as [-> _].
      right. split; [done|]. by intros ->.
    + destruct Hmin as [-> ->]. injection Hext as <-. by left.
Qed.

Lemma graham_scan_raises_witness :
  (argsort_spec insertion_argsort
   ∧ graham_scan insertion_argsort [(2,6); (3,3); (3,4); (6,2)] = Raise IndexError)
  ∧ ((IndexError = ValueError ∧ [(2,6); (3,3); (3,4); (6,2)] = [])
     ∨ (IndexError = IndexError ∧ [(2,6); (3,3); (3,4); (6,2)] ≠ [])).
Proof.
  assert (graham_scan insertion_argsort [(2,6); (3,3); (3,4); (6,2)]
          = Raise IndexError) as H by (vm_compute; reflexivity).
  split; [split; [exact insertion_argsort_spec|exact H]|].
  exact (graham_scan_raises insertion_argsort _ IndexError insertion_argsort_spec H).
Defined.

(** X15.  A single point [x, y] has no hull: [graham_scan] returns the
    empty sequence when x <= y, and raises IndexError when y < x (the
    flattened index of the least coordinate is then 1, and there is no
    row 1). *)
Theorem single_point argsort x y :
  argsort_spec argsort →
  graham_scan argsort [(x, y)]
  = if y <? x then Raise IndexError else Ok [].
Proof.
  intros Hspec.
  assert (argsort [] = []) as Hnil.
  { destruct (Hspec []) as [Hp _]. by apply Permutation_nil_r in Hp. }
  assert (extract_primary [(x, y)]
          = if y <? x then Raise IndexError else Ok ((x, y), [])) as Hext.
  { unfold extract_primary, argmin. simpl. by destruct (y <? x). }
  unfold graham_scan. rewrite Hext. destruct (y <? x); [done|].
  cbn [mbind result_bind]. rewrite sort_for_graham_scan_spec by done.
  change (slope <$> []) with (@nil Float64.t). rewrite Hnil. done.
Qed.

Lemma single_point_witness :
  argsort_spec insertion_argsort
  ∧ graham_scan insertion_argsort [(3, 5)] = (if 5 <? 3 then Raise IndexError else Ok [])
  ∧ graham_scan insertion_argsort [(5, 3)] = (if 3 <? 5 then Raise IndexError else Ok []).
Proof.
  split; [exact insertion_argsort_spec|]. split.
  - exact (single_point insertion_argsort 3 5 insertion_argsort_spec).
  - exact (single_point insertion_argsort 5 3 insertion_argsort_spec).
Defined.

(** ** Arrays too short for the loop *)

Lemma sweep_short points :
  (length points ≤ 4)%nat →
  for_each sweep_step (range 4 (Z.of_nat (length points))) (points, 3)
  = Ok (points, 3).
Proof. intros Hlen. unfold range. rewrite seqZ_nil by lia. done. Qed.

(** X16.  On an array of at most four rows the loop of
    [find_hull_vertices] has no round: no turn is tested, nothing is
    swapped, and the rows from index 1 on are returned as they are. *)
Theorem short_array_untested points :
  (length points ≤ 4)%nat → find_hull_vertices points = Ok (drop 1 points).
Proof.
  intros Hlen. unfold find_hull_vertices. rewrite sweep_short by done. cbn.
  by rewrite slice_from_1 by lia.
Qed.

Lemma short_array_untested_witness :
  (length [(2,2); (0,0); (1,1); (2,2)] ≤ 4)%nat
  ∧ find_hull_vertices [(2,2); (0,0); (1,1); (2,2)]
    = Ok (drop 1 [(2,2); (0,0); (1,1); (2,2)]).
Proof.
  assert (length [(2,2); (0,0); (1,1); (2,2)] ≤ 4)%nat as H by (simpl; lia).
  split; [exact H|].
  exact (short_array_untested [(2,2); (0,0); (1,1); (2,2)] H).
Defined.

(** X17.  With one or two remaining points, that is for an input of two
    or three points, [graham_scan] returns all of them whatever their
    position: the primary point first, then the others in ascending
    order of their keys. *)
Theorem few_points_all_kept argsort points primary remaining_points :
  argsort_spec argsort →
  extract_primary points = Ok (primary, remaining_points) →
  (1 ≤ length remaining_points ≤ 2)%nat →
  ∃ hull,
    graham_scan argsort points = Ok (primary :: hull)
    ∧ hull ≡ₚ remaining_points
    ∧ Sorted slope_le hull.
Proof.
  intros Hspec Hext Hlen.
  destruct (sorted_points_spec argsort Hspec remaining_points) as (_ & Hperm & Hsorted).
  set (l := (remaining_points !!!.) <$> _) in *.
  exists l. split; [|done].
  rewrite (graham_scan_unfold _ _ _ _ _ Hext
             (sort_for_graham_scan_spec argsort Hspec remaining_points primary)).
  fold l. assert (length l = length remaining_points) as Hl by by rewrite Hperm.
  unfold find_hull_vertices.
  rewrite sweep_short by (rewrite length_app, last_row_length; simpl; lia).
  cbn. rewrite slice_from_1
    by (rewrite ?length_app, ?last_row_length by lia; simpl; lia).
  destruct (slice l (Some (-1)) None) as [|x [|]] eqn:Hs; try done;
    apply (f_equal length) in Hs; rewrite last_row_length in Hs by lia; done.
Qed.

Lemma few_points_all_kept_witness :
  (argsort_spec insertion_argsort
   ∧ extract_primary [(0,0); (1,1); (2,2)] = Ok ((0,0), [(1,1); (2,2)])
   ∧ (1 ≤ length [(1,1); (2,2)] ≤ 2)%nat)
  ∧ ∃ hull,
      graham_scan insertion_argsort [(0,0); (1,1); (2,2)] = Ok ((0,0) :: hull)
      ∧ hull ≡ₚ [(1,1); (2,2)]
      ∧ Sorted slope_le hull.
Proof.
  assert (1 ≤ length [(1,1); (2,2)] ≤ 2)%nat as H by (simpl; lia).
  split; [split; [exact insertion_argsort_spec|split; [reflexivity|exact H]]|].
  exact (few_points_all_kept insertion_argsort [(0,0); (1,1); (2,2)] (0,0) _
           insertion_argsort_spec eq_refl H).
Defined.

(** ** When the backtracking raises *)

Lemma turn_at_in_range points M i :
  let N := Z.of_nat (length points) in
  1 - N ≤ M < N → - N ≤ i < N → ∃ t, turn_at points M i = Ok t.
Proof.
  intros N HM Hi. unfold turn_at.
  destruct (getitem_in_range points M) as [p1 ->]; [lia|].
  destruct (getitem_in_range points (M - 1)) as [p2 ->]; [lia|].
  destruct (getitem_in_range points i) as [p3 ->]; [lia|].
  cbn. eauto.
Qed.

Lemma backtrack_Raise_all fuel points i e : ∀ M,
  let N := Z.of_nat (length points) in
  M < N → - N ≤ i < N →
  backtrack fuel points M i = Raise e →
  ∀ k, Z.max (1 - N) (M - Z.of_nat fuel) ≤ k ≤ M →
       ∃ t, turn_at points k i = Ok t ∧ 0 ≤ t.
Proof.
  induction fuel as [|fuel IH]; intros M N HM Hi; rewrite backtrack_unfold.
  - destruct (turn_at points M i) as [t|] eqn:Ht; cbn.
    + destruct (Z.leb_spec 0 t); [|done]. intros _ k Hk.
      assert (k = M) as -> by lia. eauto.
    + intros _ k Hk. assert (k = M) as -> by lia.
      destruct (turn_at_in_range points M i) as [t Ht']; [lia..|]. congruence.
  - destruct (turn_at points M i) as [t|] eqn:Ht; cbn.
    + destruct (Z.leb_spec 0 t); [|done]. intros Hb k Hk.
      destruct (decide (k = M)) as [->|]; [by eauto|].
      apply (IH (M - 1)); [lia|done|done|lia].
    + intros _ k Hk.
      destruct (turn_at_in_range points M i) as [t Ht']; [lia..|]. congruence.
Qed.

(** X18.  Entered with a cursor M and a candidate index i that are rows
    of the array, the backtracking loop raises exactly when the
    orientation test reports collinear or right-turn at every cursor
    from M down to 1 − N; it then raises IndexError, on reading
    [points[M - 1]] with M = −N. *)
Theorem backtrack_raises points M i :
  let N := Z.of_nat (length points) in
  - N ≤ M < N → - N ≤ i < N →
  backtrack (Z.to_nat (M + N)) points M i = Raise IndexError
  ↔ ∀ k, 1 - N ≤ k ≤ M → ∃ t, turn_at points k i = Ok t ∧ 0 ≤ t.
Proof.
  intros N HM Hi. split.
  - intros Hb k Hk.
    pose proof (backtrack_Raise_all (Z.to_nat (M + N)) points i IndexError M) as Hall.
    cbn zeta in Hall. apply Hall; [lia|done|done|lia].
  - intros Hall.
    destruct (backtrack _ points M i) as [M'|e] eqn:Hb.
    + apply backtrack_Ok in Hb as (HM' & (t & Ht & Hneg) & _).
      destruct (Hall M') as (t' & Ht' & Hpos); [done|].
      rewrite Ht in Ht'. injection Ht' as <-. lia.
    + by apply backtrack_Raise in Hb as ->.
Qed.

Lemma backtrack_raises_witness :
  (- 5 ≤ 3 < 5 ∧ - 5 ≤ 4 < 5)
  ∧ sort_for_graham_scan insertion_argsort [(3,3); (3,4); (6,2)] (2,6)
    = Ok [(3,4); (2,6); (6,2); (3,3); (3,4)]
  ∧ backtrack (Z.to_nat (3 + 5)) [(3,4); (2,6); (6,2); (3,3); (3,4)] 3 4
    = Raise IndexError
  ∧ ∀ k, 1 - 5 ≤ k ≤ 3 →
      ∃ t, turn_at [(3,4); (2,6); (6,2); (3,3); (3,4)] k 4 = Ok t ∧ 0 ≤ t.
Proof.
  assert (- 5 ≤ 3 < 5 ∧ - 5 ≤ 4 < 5) as H by lia.
  assert (backtrack (Z.to_nat (3 + 5)) [(3,4); (2,6); (6,2); (3,3); (3,4)] 3 4
          = Raise IndexError) as Hb by (vm_compute; reflexivity).
  split; [exact H|]. split; [vm_compute; reflexivity|]. split; [exact Hb|].
  destruct H as [H1 H2].
  exact (proj1 (backtrack_raises [(3,4); (2,6); (6,2); (3,3); (3,4)] 3 4 H1 H2) Hb).
Defined.

(** ** The hull when no backtracking passes the pivot *)

Lemma sweep_step_state sorted_points points M i points' M2 :
  sweep_state sorted_points points M i →
  sweep_step (points, M) i = Ok (points', M2) → 1 < M2 →
  sweep_state sorted_points points' M2 (i + 1).
Proof.
  intros [Hinv Hnext Hstart Hlen Hs Hp Htop Hrest Hperm] Hstep HM2.
  destruct (sweep_step_inv _ _ _ _ _ Hinv Hstep HM2) as (Hinv' & Hlen' & Hp').
  destruct (sweep_step_guarded _ _ _ _ _ (inv_cursor _ _ _ Hinv) Hstep HM2)
    as (p1 & p2 & c & Hle & _ & _ & Hc & _ & Htop' & Hsame & _).
  destruct (sweep_step_Permutation _ _ _ _ _ Hstep) as [Hperm' _].
  pose proof (inv_cursor _ _ _ Hinv).
  split; try done.
  - lia.
  - lia.
  - congruence.
  - rewrite <- Hs. apply Hsame; lia.
  - congruence.
  - replace (i + 1 - 1) with i by lia. rewrite Htop', <- Hc. by apply Hrest.
  - intros j Hj. rewrite <- Hrest by lia. apply Hsame; lia.
  - by rewrite Hperm'.
Qed.

Lemma sweep_rounds_state sorted_points (n : nat) : ∀ i points M,
  sweep_state sorted_points points M i →
  rounds_stop_above 1 (seqZ i (Z.of_nat n)) (points, M) = true →
  ∃ points' M',
    for_each sweep_step (seqZ i (Z.of_nat n)) (points, M) = Ok (points', M')
    ∧ sweep_state sorted_points points' M' (i + Z.of_nat n).
Proof.
  induction n as [|n IH]; intros i points M Hst.
  { rewrite seqZ_nil by lia. intros _. exists points, M.
    by rewrite Z.add_0_r. }
  rewrite seqZ_cons by lia.
  replace (Z.pred (Z.of_nat (S n))) with (Z.of_nat n) by lia.
  cbn [rounds_stop_above for_each].
  destruct (sweep_step (points, M) i) as [[points1 M1]|] eqn:Hstep; [|done].
  intros [HM1%Z.ltb_lt Hrest]%andb_true_iff. cbn in HM1 |- *.
  pose proof (sweep_step_state _ _ _ _ _ _ Hst Hstep HM1) as Hst1.
  destruct (IH (Z.succ i) points1 M1) as (points' & M' & Hrun & Hst');
    [by replace (Z.succ i) with (i + 1) by lia|done|].
  exists points', M'. split; [done|].
  by replace (i + Z.of_nat (S n)) with (Z.succ i + Z.of_nat n) by lia.
Qed.

Lemma find_hull_vertices_state points :
  sweep_inv points 3 4 → sentinel_stops points = true →
  ∃ points' M,
    find_hull_vertices points = Ok (slice points' (Some 1) (Some (M + 1)))
    ∧ sweep_state points points' M (Z.max 4 (Z.of_nat (length points))).
Proof.
  intros Hinv Hstops. unfold sentinel_stops, range in Hstops.
  unfold find_hull_vertices, range.
  set (N := Z.of_nat (length points)) in *.
  assert (sweep_state points points 3 4) as Hst by (split; done).
  destruct (decide (N - 4 ≤ 0)) as [Hle|Hgt].
  - rewrite seqZ_nil by done. cbn. exists points, 3.
    by rewrite Z.max_l by lia.
  - replace (N - 4) with (Z.of_nat (Z.to_nat (N - 4))) in * by lia.
    destruct (sweep_rounds_state _ _ _ _ _ Hst Hstops)
      as (points' & M' & -> & Hst').
    cbn. exists points', M'. split; [done|].
    by replace (Z.max 4 N) with (4 + Z.of_nat (Z.to_nat (N - 4))) by lia.
Qed.

(** The run of [graham_scan] on an input whose sweep never passes the pivot. *)
Lemma graham_scan_state argsort points primary remaining_points sorted_points :
  argsort_spec argsort →
  extract_primary points = Ok (primary, remaining_points) →
  sort_for_graham_scan argsort remaining_points primary = Ok sorted_points →
  sentinel_stops sorted_points = true →
  ∃ l points' M,
    sorted_points = slice l (Some (-1)) None ++ primary :: l
    ∧ l ≡ₚ remaining_points
    ∧ StronglySorted slope_le l
    ∧ 2 ≤ M
    ∧ graham_scan argsort points = Ok (take (Z.to_nat M) (drop 1 points'))
    ∧ sweep_state sorted_points points' M
        (Z.max 4 (Z.of_nat (length sorted_points))).
Proof.
  intros Hspec Hext Hsort Hstops.
  destruct (sorted_points_spec argsort Hspec remaining_points) as (_ & Hperm & Hsorted).
  rewrite (graham_scan_unfold _ _ _ _ _ Hext Hsort).
  rewrite sort_for_graham_scan_spec in Hsort by done. injection Hsort as <-.
  set (l := (remaining_points !!!.) <$> _) in *.
  pose proof (sorted_array_inv l primary Hsorted) as Hinv.
  destruct (find_hull_vertices_state _ Hinv Hstops) as (arr & M & -> & Hst).
  pose proof (inv_cursor _ _ _ (st_inv _ _ _ _ Hst)) as Hcur.
  exists l, arr, M. split_and!; [done|done| |lia| |done].
  - apply Sorted_StronglySorted; [apply _|done].
  - f_equal.
    assert (slice arr (Some 1) (Some (M + 1))
            = slice arr (Some (Z.of_nat 1)) (Some (Z.of_nat (Z.to_nat (M + 1)))))
      as -> by (by rewrite Z2Nat.id by lia).
    rewrite slice_between. f_equal. lia.
Qed.

Lemma hull_lookup {A} (points hull : list A) (m k : nat) x :
  hull = take m (drop 1 points) → hull !! k = Some x →
  points !! S k = Some x ∧ (k < m)%nat.
Proof.
  intros -> Hx. apply lookup_take_Some in Hx as [Hx ?].
  by rewrite lookup_drop in Hx.
Qed.

(** X19.  On every input on which each backtracking of the sweep stops
    at a cursor M ≥ 1, three consecutive points a, b, c of the returned
    hull, the first point of the hull not among them, make a left turn:
    the orientation test, applied as the sweep applies it, is negative. *)
Theorem hull_left_turns argsort points primary remaining_points sorted_points hull :
  argsort_spec argsort →
  extract_primary points = Ok (primary, remaining_points) →
  sort_for_graham_scan argsort remaining_points primary = Ok sorted_points →
  sentinel_stops sorted_points = true →
  graham_scan argsort points = Ok hull →
  ∀ (k : nat) a b c,
    (1 ≤ k)%nat →
    hull !! k = Some a → hull !! S k = Some b → hull !! S (S k) = Some c →
    ccw b a c < 0.
Proof.
  intros Hspec Hext Hsort Hstops Hhull k a b c Hk Ha Hb Hc.
  destruct (graham_scan_state _ _ _ _ _ Hspec Hext Hsort Hstops)
    as (l & arr & M & _ & _ & _ & HM & Hrun & Hst).
  rewrite Hrun in Hhull. injection Hhull as Hhull. symmetry in Hhull.
  destruct (hull_lookup _ _ _ _ _ Hhull Ha) as [Ha' _].
  destruct (hull_lookup _ _ _ _ _ Hhull Hb) as [Hb' _].
  destruct (hull_lookup _ _ _ _ _ Hhull Hc) as [Hc' Hlt].
  destruct (inv_left _ _ _ (st_inv _ _ _ _ Hst) (Z.of_nat (S (S k))))
    as (p1 & p2 & p3 & H1 & H2 & H3 & Hneg); [lia|].
  replace (Z.to_nat (Z.of_nat (S (S k)))) with (S (S k)) in H1 by lia.
  replace (Z.to_nat (Z.of_nat (S (S k)) - 1)) with (S k) in H2 by lia.
  replace (Z.to_nat (Z.of_nat (S (S k)) + 1)) with (S (S (S k))) in H3 by lia.
  by simplify_eq.
Qed.

Lemma hull_left_turns_witness :
  (argsort_spec insertion_argsort
   ∧ extract_primary scenario1
     = Ok ((1,1), [(2,5); (3,2); (4,4); (5,2); (6,3); (2,3); (3,4); (5,3)])
   ∧ sort_for_graham_scan insertion_argsort
       [(2,5); (3,2); (4,4); (5,2); (6,3); (2,3); (3,4); (5,3)] (1,1)
     = Ok [(2,5); (1,1); (5,2); (6,3); (5,3); (3,2); (4,4); (3,4); (2,3); (2,5)]
   ∧ sentinel_stops
       [(2,5); (1,1); (5,2); (6,3); (5,3); (3,2); (4,4); (3,4); (2,3); (2,5)] = true
   ∧ graham_scan insertion_argsort scenario1
     = Ok [(1,1); (5,2); (6,3); (4,4); (2,5)])
  ∧ ccw (6,3) (5,2) (4,4) < 0.
Proof.
  assert (extract_primary scenario1
          = Ok ((1,1), [(2,5); (3,2); (4,4); (5,2); (6,3); (2,3); (3,4); (5,3)]))
    as Hext by (vm_compute; reflexivity).
  assert (sort_for_graham_scan insertion_argsort
            [(2,5); (3,2); (4,4); (5,2); (6,3); (2,3); (3,4); (5,3)] (1,1)
          = Ok [(2,5); (1,1); (5,2); (6,3); (5,3); (3,2); (4,4); (3,4); (2,3); (2,5)])
    as Hsort by (vm_compute; reflexivity).
  assert (sentinel_stops
            [(2,5); (1,1); (5,2); (6,3); (5,3); (3,2); (4,4); (3,4); (2,3); (2,5)]
          = true)
    as Hstops by (vm_compute; reflexivity).
  assert (graham_scan insertion_argsort scenario1
          = Ok [(1,1); (5,2); (6,3); (4,4); (2,5)])
    as Hhull by (vm_compute; reflexivity).
  split; [split_and!; [exact insertion_argsort_spec|assumption..]|].
  exact (hull_left_turns insertion_argsort scenario1 (1,1) _ _ _
           insertion_argsort_spec Hext Hsort Hstops Hhull
           1%nat (5,2) (6,3) (4,4) (le_n 1) eq_refl eq_refl eq_refl).
Defined.

Lemma StronglySorted_lookup_2 {A} (R : relation A) l :
  (∀ i j x y, (i < j)%nat → l !! i = Some x → l !! j = Some y → R x y) →
  StronglySorted R l.
Proof.
  induction l as [|z l IH]; intros Hl; constructor.
  - apply IH. intros i j x y Hij Hi Hj. apply (Hl (S i) (S j)); [lia|done..].
  - apply Forall_lookup. intros j y Hj. apply (Hl 0%nat (S j)); [lia|done..].
Qed.

(** X20.  On every input on which each backtracking of the sweep stops
    at a cursor M ≥ 1, the points of the returned hull after the first
    are in ascending order of their keys y/x. *)
Theorem hull_tail_ascending argsort points primary remaining_points sorted_points hull :
  argsort_spec argsort →
  extract_primary points = Ok (primary, remaining_points) →
  sort_for_graham_scan argsort remaining_points primary = Ok sorted_points →
  sentinel_stops sorted_points = true →
  graham_scan argsort points = Ok hull →
  StronglySorted slope_le (drop 1 hull).
Proof.
  intros Hspec Hext Hsort Hstops Hhull.
  destruct (graham_scan_state _ _ _ _ _ Hspec Hext Hsort Hstops)
    as (l & arr & M & _ & _ & _ & HM & Hrun & Hst).
  rewrite Hrun in Hhull. injection Hhull as Hhull. symmetry in Hhull.
  apply StronglySorted_lookup_2. intros k1 k2 p q Hlt.
  rewrite !lookup_drop. intros Hp Hq.
  destruct (hull_lookup _ _ _ _ _ Hhull Hp) as [Hp' ?].
  destruct (hull_lookup _ _ _ _ _ Hhull Hq) as [Hq' ?].
  apply (inv_sorted _ _ _ (st_inv _ _ _ _ Hst)
           (Z.of_nat (S (1 + k1))) (Z.of_nat (S (1 + k2))));
    unfold live; rewrite ?Nat2Z.id; try done; lia.
Qed.

Lemma hull_tail_ascending_witness :
  (argsort_spec insertion_argsort
   ∧ extract_primary four_points = Ok ((1,1), [(1,2); (2,5); (2,6)])
   ∧ sort_for_graham_scan insertion_argsort [(1,2); (2,5); (2,6)] (1,1)
     = Ok [(2,6); (1,1); (1,2); (2,5); (2,6)]
   ∧ sentinel_stops [(2,6); (1,1); (1,2); (2,5); (2,6)] = true
   ∧ graham_scan insertion_argsort four_points
     = Ok [(1,1); (1,2); (2,5); (2,6)])
  ∧ StronglySorted slope_le (drop 1 [(1,1); (1,2); (2,5); (2,6)]).
Proof.
  assert (extract_primary four_points = Ok ((1,1), [(1,2); (2,5); (2,6)]))
    as Hext by (vm_compute; reflexivity).
  assert (sort_for_graham_scan insertion_argsort [(1,2); (2,5); (2,6)] (1,1)
          = Ok [(2,6); (1,1); (1,2); (2,5); (2,6)])
    as Hsort by (vm_compute; reflexivity).
  assert (sentinel_stops [(2,6); (1,1); (1,2); (2,5); (2,6)] = true)
    as Hstops by (vm_compute; reflexivity).
  assert (graham_scan insertion_argsort four_points
          = Ok [(1,1); (1,2); (2,5); (2,6)])
    as Hhull by (vm_compute; reflexivity).
  split; [split_and!; [exact insertion_argsort_spec|assumption..]|].
  exact (hull_tail_ascending insertion_argsort four_points (1,1) _ _ _
           insertion_argsort_spec Hext Hsort Hstops Hhull).
Defined.

Lemma drop_1_Permutation {A} (a b : list A) :
  a ≡ₚ b → a !! 0%nat = b !! 0%nat → drop 1 a ≡ₚ drop 1 b.
Proof.
  intros Hperm H0. destruct a as [|x a], b as [|y b]; simplify_eq/=; [done|].
  by apply (inj (cons y)).
Qed.

(** X21.  On every input on which each backtracking of the sweep stops
    at a cursor M ≥ 1, the returned hull takes its points from the input
    without using any of them more often than it occurs there; and from
    an input of at least two points it returns at least two. *)
Theorem hull_submseteq argsort points primary remaining_points sorted_points hull :
  argsort_spec argsort →
  extract_primary points = Ok (primary, remaining_points) →
  sort_for_graham_scan argsort remaining_points primary = Ok sorted_points →
  sentinel_stops sorted_points = true →
  graham_scan argsort points = Ok hull →
  hull ⊆+ points
  ∧ ((2 ≤ length points)%nat → (2 ≤ length hull)%nat).
Proof.
  intros Hspec Hext Hsort Hstops Hhull.
  destruct (graham_scan_state _ _ _ _ _ Hspec Hext Hsort Hstops)
    as (l & arr & M & Hw & Hl & _ & HM & Hrun & Hst).
  rewrite Hrun in Hhull. injection Hhull as <-.
  pose proof (extract_primary_Permutation _ _ _ Hext) as Hpts.
  pose proof (extract_primary_length _ _ _ Hext) as Hlen.
  pose proof (drop_1_Permutation _ _ (st_perm _ _ _ _ Hst) (st_sentinel _ _ _ _ Hst))
    as Hdrop.
  assert (length l = length remaining_points) as Hll by by rewrite Hl.
  split.
  - etrans; [apply submseteq_take|]. rewrite Hdrop, Hw, slice_last.
    destruct (decide (length l = 0)%nat) as [H0|H0].
    + destruct l; [|done]. simpl. apply submseteq_nil_l.
    + destruct (drop (length l - 1) l) as [|x [|]] eqn:Hd;
        try (apply (f_equal length) in Hd; rewrite length_drop in Hd;
             simpl in Hd; lia).
      simpl. by rewrite Hl, Hpts.
  - intros H2. rewrite length_take, length_drop, (st_length _ _ _ _ Hst), Hw.
    rewrite length_app, last_row_length by lia. simpl. lia.
Qed.

Lemma hull_submseteq_witness :
  (argsort_spec insertion_argsort
   ∧ extract_primary four_points = Ok ((1,1), [(1,2); (2,5); (2,6)])
   ∧ sort_for_graham_scan insertion_argsort [(1,2); (2,5); (2,6)] (1,1)
     = Ok [(2,6); (1,1); (1,2); (2,5); (2,6)]
   ∧ sentinel_stops [(2,6); (1,1); (1,2); (2,5); (2,6)] = true
   ∧ graham_scan insertion_argsort four_points
     = Ok [(1,1); (1,2); (2,5); (2,6)])
  ∧ [(1,1); (1,2); (2,5); (2,6)] ⊆+ four_points
  ∧ ((2 ≤ length four_points)%nat
     → (2 ≤ length [(1,1); (1,2); (2,5); (2,6)])%nat).
Proof.
  assert (extract_primary four_points = Ok ((1,1), [(1,2); (2,5); (2,6)]))
    as Hext by (vm_compute; reflexivity).
  assert (sort_for_graham_scan insertion_argsort [(1,2); (2,5); (2,6)] (1,1)
          = Ok [(2,6); (1,1); (1,2); (2,5); (2,6)])
    as Hsort by (vm_compute; reflexivity).
  assert (sentinel_stops [(2,6); (1,1); (1,2); (2,5); (2,6)] = true)
    as Hstops by (vm_compute; reflexivity).
  assert (graham_scan insertion_argsort four_points
          = Ok [(1,1); (1,2); (2,5); (2,6)])
    as Hhull by (vm_compute; reflexivity).
  split; [split_and!; [exact insertion_argsort_spec|assumption..]|].
  exact (hull_submseteq insertion_argsort four_points (1,1) _ _ _
           insertion_argsort_spec Hext Hsort Hstops Hhull).
Defined.

Lemma slope_le_refl p : slope_le p p.
Proof.
  unfold slope_le, Float64.le. destruct (Float64.lt _ _) eqn:Hlt; [|done].
  by rewrite (Float64Facts.lt_asym _ _ Hlt) in Hlt.
Qed.

(** X22.  On every input of at least two points on which each
    backtracking of the sweep stops at a cursor M ≥ 1, the last point of
    the returned hull is the point the sort put last, the one
    [sort_for_graham_scan] copied to row 0: no remaining point has a
    larger key. *)
Theorem hull_last_point argsort points primary remaining_points sorted_points hull :
  argsort_spec argsort →
  (2 ≤ length points)%nat →
  extract_primary points = Ok (primary, remaining_points) →
  sort_for_graham_scan argsort remaining_points primary = Ok sorted_points →
  sentinel_stops sorted_points = true →
  graham_scan argsort points = Ok hull →
  ∃ s, list.last hull = Some s
    ∧ sorted_points !! 0%nat = Some s
    ∧ ∀ p, p ∈ remaining_points → slope_le p s.
Proof.
  intros Hspec H2 Hext Hsort Hstops Hhull.
  destruct (graham_scan_state _ _ _ _ _ Hspec Hext Hsort Hstops)
    as (l & arr & M & Hw & Hl & Hsorted & HM & Hrun & Hst).
  rewrite Hrun in Hhull. injection Hhull as <-.
  pose proof (extract_primary_length _ _ _ Hext) as Hlen.
  assert (length l = length remaining_points) as Hll by by rewrite Hl.
  destruct (lookup_lt_is_Some_2 l (pred (length l))) as [s Hs]; [lia|].
  rewrite (last_row_lookup _ _ Hs) in Hw. simpl in Hw.
  assert (length sorted_points = S (S (length l))) as HN by by rewrite Hw.
  exists s. split_and!.
  - rewrite last_lookup, length_take, length_drop, (st_length _ _ _ _ Hst), HN.
    destruct (decide (length l ≤ 2)%nat) as [Hshort|Hlong].
    + destruct (st_start _ _ _ _ Hst) as [-> ->]; [lia|].
      rewrite lookup_take_lt, lookup_drop, Hw by lia.
      replace (1 + pred (Z.to_nat 3 `min` (S (S (length l)) - 1)))%nat
        with (S (S (pred (length l)))) by lia.
      done.
    + pose proof (inv_cursor _ _ _ (st_inv _ _ _ _ Hst)) as Hcur.
      pose proof (st_top _ _ _ _ Hst) as Htop.
      rewrite HN in Hcur, Htop.
      rewrite lookup_take_lt, lookup_drop by lia.
      replace (1 + pred (Z.to_nat M `min` (S (S (length l)) - 1)))%nat
        with (Z.to_nat M) by lia.
      rewrite Htop, Hw.
      replace (Z.to_nat (Z.max 4 (Z.of_nat (S (S (length l)))) - 1))
        with (S (S (pred (length l)))) by lia.
      done.
  - by rewrite Hw.
  - intros p Hp. rewrite <- Hl in Hp.
    apply list_elem_of_lookup_1 in Hp as [k Hk].
    pose proof (lookup_lt_Some _ _ _ Hk).
    destruct (decide (k = pred (length l))) as [->|].
    + assert (p = s) as -> by congruence. apply slope_le_refl.
    + eapply StronglySorted_lookup_lt; eauto. lia.
Qed.

Lemma hull_last_point_witness :
  (argsort_spec insertion_argsort
   ∧ (2 ≤ length scenario1)%nat
   ∧ extract_primary scenario1
     = Ok ((1,1), [(2,5); (3,2); (4,4); (5,2); (6,3); (2,3); (3,4); (5,3)])
   ∧ sort_for_graham_scan insertion_argsort
       [(2,5); (3,2); (4,4); (5,2); (6,3); (2,3); (3,4); (5,3)] (1,1)
     = Ok [(2,5); (1,1); (5,2); (6,3); (5,3); (3,2); (4,4); (3,4); (2,3); (2,5)]
   ∧ sentinel_stops
       [(2,5); (1,1); (5,2); (6,3); (5,3); (3,2); (4,4); (3,4); (2,3); (2,5)] = true
   ∧ graham_scan insertion_argsort scenario1
     = Ok [(1,1); (5,2); (6,3); (4,4); (2,5)])
  ∧ ∃ s, list.last [(1,1); (5,2); (6,3); (4,4); (2,5)] = Some s
      ∧ [(2,5); (1,1); (5,2); (6,3); (5,3); (3,2); (4,4); (3,4); (2,3); (2,5)]
          !! 0%nat = Some s
      ∧ ∀ p, p ∈ [(2,5); (3,2); (4,4); (5,2); (6,3); (2,3); (3,4); (5,3)]
             → slope_le p s.
Proof.
  assert (2 ≤ length scenario1)%nat as Hlen by (simpl; lia).
  assert (extract_primary scenario1
          = Ok ((1,1), [(2,5); (3,2); (4,4); (5,2); (6,3); (2,3); (3,4); (5,3)]))
    as Hext by (vm_compute; reflexivity).
  assert (sort_for_graham_scan insertion_argsort
            [(2,5); (3,2); (4,4); (5,2); (6,3); (2,3); (3,4); (5,3)] (1,1)
          = Ok [(2,5); (1,1); (5,2); (6,3); (5,3); (3,2); (4,4); (3,4); (2,3); (2,5)])
    as Hsort by (vm_compute; reflexivity).
  assert (sentinel_stops
            [(2,5); (1,1); (5,2); (6,3); (5,3); (3,2); (4,4); (3,4); (2,3); (2,5)]
          = true)
    as Hstops by (vm_compute; reflexivity).
  assert (graham_scan insertion_argsort scenario1
          = Ok [(1,1); (5,2); (6,3); (4,4); (2,5)])
    as Hhull by (vm_compute; reflexivity).
  split; [split_and!; [exact insertion_argsort_spec|assumption..]|].
  exact (hull_last_point insertion_argsort scenario1 (1,1) _ _ _
           insertion_argsort_spec Hlen Hext Hsort Hstops Hhull).
Defined.

(** X23.  When the orientation test reports a left turn at every row
    from index 3 to the last but one, between its two neighbours,
    [find_hull_vertices] pops nothing and returns every row but the
    sentinel at index 0, in the order of the array. *)
Theorem left_turns_keep_all points :
  (3 ≤ length points)%nat →
  (∀ k, 3 ≤ k → k + 1 < Z.of_nat (length points) → left_at points k) →
  find_hull_vertices points = Ok (drop 1 points).
Proof. apply no_backtracking. Qed.

Lemma left_turns_keep_all_witness :
  (Nat.le 3 (length [(2,5); (1,1); (5,2); (6,3); (4,4); (2,5)])
   ∧ ∀ k, 3 ≤ k →
       k + 1 < Z.of_nat (length [(2,5); (1,1); (5,2); (6,3); (4,4); (2,5)]) →
       left_at [(2,5); (1,1); (5,2); (6,3); (4,4); (2,5)] k)
  ∧ find_hull_vertices [(2,5); (1,1); (5,2); (6,3); (4,4); (2,5)]
    = Ok (drop 1 [(2,5); (1,1); (5,2); (6,3); (4,4); (2,5)]).
Proof.
  assert (Nat.le 3 (length [(2,5); (1,1); (5,2); (6,3); (4,4); (2,5)])) as Hlen
    by (simpl; lia).
  assert (∀ k, 3 ≤ k →
            k + 1 < Z.of_nat (length [(2,5); (1,1); (5,2); (6,3); (4,4); (2,5)]) →
            left_at [(2,5); (1,1); (5,2); (6,3); (4,4); (2,5)] k) as Hleft.
  { intros k H3 Hk. simpl in Hk.
    assert (k = 3 ∨ k = 4) as [->| ->] by lia;
      eexists _, _, _; split_and!; try reflexivity; vm_compute; reflexivity. }
  split; [split; [exact Hlen|exact Hleft]|].
  exact (left_turns_keep_all _ Hlen Hleft).
Defined.
